(** * manify: a shallow embedding of the bstrlib manual-page scanner

    [src/manify.c] is a flex scanner that turns [bstrlib.txt] into troff
    manual pages.  This development embeds its text transforms ([esc],
    [trim_leading_spaces], [indent]), its block emitters, the function-page
    emitter and the rule table of the scanner, and states the properties of
    the specification over that embedding. *)

From Stdlib Require Import List String Ascii ZArith Lia Bool.
Import ListNotations.

Local Open Scope Z_scope.

(** ** C strings

    A C string is modelled by the list of the characters that precede its
    terminating NUL, so a [cstring] is meant to hold no NUL: a document
    with NUL bytes, whose lexemes the string functions of the actions
    would read only up to the first one, is outside the model ([has_nul]
    below).  Integers of the program ([int], [size_t]) are [Z]; positions
    inside a list are [nat]. *)

Definition cstring : Type := list ascii.

Definition NUL : ascii := "000"%char.
Definition nl : ascii := "010"%char.
Definition tab : ascii := "009"%char.
Definition space : ascii := " "%char.
Definition backslash : ascii := "\"%char.
Definition apostrophe : ascii := "'"%char.
Definition period : ascii := "."%char.

Definition is_char (a c : ascii) : bool := Ascii.eqb a c.

(** Whether a text holds a NUL byte. *)
Definition has_nul (s : cstring) : bool :=
  existsb (fun c => is_char c NUL) s.

(** [cstr] reads a literal written with the escapes of a C string literal
    (backslash-n, backslash-t, backslash-backslash), so that the inputs of
    the examples read as they do in C. *)
Fixpoint cstr (s : string) : cstring :=
  match s with
  | EmptyString => []
  | String c rest =>
      if is_char c backslash then
        match rest with
        | String e rest' =>
            (if is_char e "n" then nl
             else if is_char e "t" then tab
             else e) :: cstr rest'
        | EmptyString => [c]
        end
      else c :: cstr rest
  end.

Definition strlen (s : cstring) : Z := Z.of_nat (List.length s).

(** [strspn s accept]: length of the longest prefix of [s] made of
    characters of [accept]. *)
Fixpoint strspn (s accept : cstring) : nat :=
  match s with
  | c :: s' => if existsb (is_char c) accept then S (strspn s' accept) else O
  | [] => O
  end.

(** [index s c]: offset of the first [c] in [s], [None] for the NULL
    pointer. *)
Fixpoint index (s : cstring) (c : ascii) : option nat :=
  match s with
  | [] => None
  | x :: s' => if is_char x c then Some O else option_map S (index s' c)
  end.

Fixpoint is_prefix (p s : cstring) : bool :=
  match p, s with
  | [], _ => true
  | a :: p', b :: s' => is_char a b && is_prefix p' s'
  | _ :: _, [] => false
  end.

(** [strstr s needle]: offset of the first occurrence of [needle]. *)
Fixpoint strstr (s needle : cstring) : option nat :=
  if is_prefix needle s then Some O
  else match s with
       | [] => None
       | _ :: s' => option_map S (strstr s' needle)
       end.

(** [toupper] in the C locale. *)
Definition toupper (c : ascii) : ascii :=
  let n := nat_of_ascii c in
  if (Nat.leb 97 n && Nat.leb n 122)%bool then ascii_of_nat (n - 32) else c.

Definition str2upper (s : cstring) : cstring := map toupper s.

(** ** Fatal errors

    [die] logs and aborts the process.  [Crash] stands for a run that leaves
    defined behaviour (a NULL pointer handed to [strlen], a write to a closed
    stream). *)

Inductive result (A : Type) : Type :=
| Ret (a : A)
| Die (msg : string)
| Crash.
Arguments Ret {A} a.
Arguments Die {A} msg.
Arguments Crash {A}.

Definition bind {A B : Type} (m : result A) (f : A -> result B) : result B :=
  match m with
  | Ret a => f a
  | Die msg => Die msg
  | Crash => Crash
  end.

Notation "x <- m ;; k" := (bind m (fun x => k))
  (at level 61, m at next level, right associativity).

Definition BUFLEN : Z := 5000.
Definition FILEBUFLEN : nat := 100.

(** ** esc

    [g_esc_buf] is written left to right.  The model keeps the value of
    [dst] and the log of the stores [g_esc_buf[i] = c] (most recent first),
    so that the index of every store is visible. *)

Record esc_buf : Type := {
  esc_dst : Z;
  esc_log : list (Z * ascii)
}.

(** [g_esc_buf[dst++] = c] *)
Definition esc_put (c : ascii) (b : esc_buf) : esc_buf :=
  {| esc_dst := esc_dst b + 1; esc_log := (esc_dst b, c) :: esc_log b |}.

Definition is_quote_or_dot (c : ascii) : bool :=
  is_char c apostrophe || is_char c period.

Definition after_newline (prev : option ascii) : bool :=
  match prev with
  | Some p => is_char p nl
  | None => false
  end.

(** The loop of [esc]; [prev] is [s[i-1]], [None] when [i = 0]. *)
Fixpoint esc_loop (prev : option ascii) (s : cstring) (b : esc_buf)
  : esc_buf * result unit :=
  match s with
  | [] => (b, Ret tt)
  | c :: s' =>
      if BUFLEN <? esc_dst b then (b, Die "buffer overrun")
      else
        let b1 := if is_char c backslash then esc_put backslash b else b in
        let b2 := if is_quote_or_dot c && after_newline prev
                  then esc_put backslash b1 else b1 in
        esc_loop (Some c) s' (esc_put c b2)
  end.

Definition esc_init : esc_buf := {| esc_dst := 0; esc_log := [] |}.

(** The stores of one call, oldest first, with its outcome: the string left
    in [g_esc_buf], or the abort. *)
Definition esc_run (s : cstring) : list (Z * ascii) * result cstring :=
  let (b, r) := esc_loop None s esc_init in
  match r with
  | Ret _ => (rev ((esc_dst b, NUL) :: esc_log b),
              Ret (map snd (rev (esc_log b))))
  | Die msg => (rev (esc_log b), Die msg)
  | Crash => (rev (esc_log b), Crash)
  end.

Definition esc_stores (s : cstring) : list (Z * ascii) := fst (esc_run s).
Definition esc (s : cstring) : result cstring := snd (esc_run s).

(** ** trim_leading_spaces *)

Fixpoint trim_loop (s : cstring) (trimming : bool) (dst : Z) (out : cstring)
  : result cstring :=
  match s with
  | [] => Ret (rev out)
  | c :: s' =>
      let trimming := is_char c nl || (trimming && is_char c space) in
      if trimming && is_char c space then trim_loop s' trimming dst out
      else if BUFLEN <=? dst + 1 then Die "trim buffer too small"
      else trim_loop s' trimming (dst + 1) (c :: out)
  end.

Definition trim_leading_spaces (s : cstring) : result cstring :=
  trim_loop s true 0 [].

(** ** indent *)

Fixpoint indent_loop (spaces : Z) (s : cstring) (spaceAfterNewline : bool)
    (delta dst : Z) (out : cstring) : result cstring :=
  match s with
  | [] => Ret (rev out)
  | c :: s' =>
      let advance (delta dst : Z) (out : cstring) :=
        let delta := if is_char c nl then spaces else delta in
        let san := if is_char c nl then true else spaceAfterNewline in
        let san := match s' with
                   | c' :: _ => if is_char c' space then san else false
                   | [] => false
                   end in
        indent_loop spaces s' san delta dst out in
      if 0 <? delta then
        if BUFLEN <=? dst + 1 then Die "indent buffer too small"
        else advance (delta - 1) (dst + 1) (space :: out)
      else if spaceAfterNewline && is_char c space && (delta <? 0) then
        advance (delta + 1) dst out
      else if BUFLEN <=? dst + 1 then Die "indent buffer too small"
      else advance delta (dst + 1) (c :: out)
  end.

Definition indent (s : cstring) (spaces : Z) : result cstring :=
  indent_loop spaces s true spaces 0 [].

(** ** Regular expressions

    The patterns of the rules section and [FUNC_RE] are regular expressions
    over 8-bit characters.  A character class is its membership test. *)

Definition cclass : Type := ascii -> bool.

Definition one (c : ascii) : cclass := fun x => is_char x c.
Definition range (lo hi : ascii) : cclass :=
  fun x => (Nat.leb (nat_of_ascii lo) (nat_of_ascii x)
            && Nat.leb (nat_of_ascii x) (nat_of_ascii hi))%bool.
Definition union (a b : cclass) : cclass := fun x => a x || b x.
Definition neg (a : cclass) : cclass := fun x => negb (a x).
(** flex's class difference [a{-}b] *)
Definition diff (a b : cclass) : cclass := fun x => a x && negb (b x).
(** [.] matches any character but a newline. *)
Definition dot : cclass := neg (one nl).
(** [[:space:]] and [[:digit:]] in the C locale *)
Definition cls_space : cclass :=
  fun x => let n := nat_of_ascii x in
           (Nat.eqb n 32 || (Nat.leb 9 n && Nat.leb n 13))%bool.
Definition cls_digit : cclass := range "0" "9".

Inductive regex : Type :=
| Void
| Eps
| Cls (p : cclass)
| Cat (r1 r2 : regex)
| Alt (r1 r2 : regex)
| Star (r : regex).

Definition Chr (c : ascii) : regex := Cls (one c).

(** A literal string. *)
Fixpoint Lit (s : cstring) : regex :=
  match s with
  | [] => Eps
  | [c] => Chr c
  | c :: s' => Cat (Chr c) (Lit s')
  end.

Definition Plus (r : regex) : regex := Cat r (Star r).
Definition Opt (r : regex) : regex := Alt r Eps.

(** [r{n}] *)
Fixpoint Rep (n : nat) (r : regex) : regex :=
  match n with
  | O => Eps
  | S O => r
  | S n' => Cat r (Rep n' r)
  end.

(** [r{n,}] *)
Definition AtLeast (n : nat) (r : regex) : regex :=
  match n with
  | O => Star r
  | _ => Cat (Rep n r) (Star r)
  end.

(** [r{0,n}] *)
Fixpoint UpTo (n : nat) (r : regex) : regex :=
  match n with
  | O => Eps
  | S n' => Opt (Cat r (UpTo n' r))
  end.

Fixpoint nullable (r : regex) : bool :=
  match r with
  | Void => false
  | Eps => true
  | Cls _ => false
  | Cat r1 r2 => nullable r1 && nullable r2
  | Alt r1 r2 => nullable r1 || nullable r2
  | Star _ => true
  end.

(** Concatenation and union that absorb [Void] and [Eps]. *)
Definition cat (r1 r2 : regex) : regex :=
  match r1, r2 with
  | Void, _ => Void
  | _, Void => Void
  | Eps, _ => r2
  | _, Eps => r1
  | _, _ => Cat r1 r2
  end.

Definition alt (r1 r2 : regex) : regex :=
  match r1, r2 with
  | Void, _ => r2
  | _, Void => r1
  | _, _ => Alt r1 r2
  end.

(** Brzozowski derivative. *)
Fixpoint deriv (c : ascii) (r : regex) : regex :=
  match r with
  | Void => Void
  | Eps => Void
  | Cls p => if p c then Eps else Void
  | Cat r1 r2 =>
      alt (cat (deriv c r1) r2) (if nullable r1 then deriv c r2 else Void)
  | Alt r1 r2 => alt (deriv c r1) (deriv c r2)
  | Star r1 => cat (deriv c r1) (Star r1)
  end.

Definition is_void (r : regex) : bool :=
  match r with
  | Void => true
  | _ => false
  end.

(** [longest r s pos best]: the scanner has read [pos] characters, [r] is
    what is left of the pattern and [best] the length of the last match
    seen; the result is the length of the longest matching prefix. *)
Fixpoint longest (r : regex) (s : cstring) (pos : nat) (best : option nat)
  : option nat :=
  let best := if nullable r then Some pos else best in
  match s with
  | [] => best
  | c :: s' =>
      let r' := deriv c r in
      if is_void r' then best else longest r' s' (S pos) best
  end.

Definition match_len (r : regex) (s : cstring) : option nat :=
  longest r s O None.

(** [regexec] without [REG_NOTBOL]: the leftmost match, and the longest
    at that offset; the result is [(rm_so, rm_eo)]. *)
Fixpoint regexec_from (r : regex) (s : cstring) (so : nat)
  : option (nat * nat) :=
  match match_len r s with
  | Some n => Some (so, (so + n)%nat)
  | None =>
      match s with
      | [] => None
      | _ :: s' => regexec_from r s' (S so)
      end
  end.

Definition regexec (r : regex) (s : cstring) : option (nat * nat) :=
  regexec_from r s O.

(** [FUNC_RE], ["[bu][a-zA-Z0-9-]+ ?\\("] *)
Definition FUNC_RE : regex :=
  Cat (Cls (union (one "b") (one "u")))
   (Cat (Plus (Cls (union (range "a" "z")
                    (union (range "A" "Z")
                     (union (range "0" "9") (one "-"))))))
    (Cat (Opt (Chr space)) (Chr "("))).

(** What it means for a string to match a pattern; the matcher above is
    proved against it. *)
Inductive matches : regex -> cstring -> Prop :=
| m_eps : matches Eps []
| m_cls (p : cclass) (c : ascii) : p c = true -> matches (Cls p) [c]
| m_cat (r1 r2 : regex) (u v : cstring) :
    matches r1 u -> matches r2 v -> matches (Cat r1 r2) (u ++ v)
| m_alt_l (r1 r2 : regex) (w : cstring) :
    matches r1 w -> matches (Alt r1 r2) w
| m_alt_r (r1 r2 : regex) (w : cstring) :
    matches r2 w -> matches (Alt r1 r2) w
| m_star_nil (r : regex) : matches (Star r) []
| m_star_cons (r : regex) (u v : cstring) :
    matches r u -> matches (Star r) v -> matches (Star r) (u ++ v).

(** ** Scanner state

    The globals of the program, the state of the generated scanner that the
    actions can observe ([YY_START], the beginning-of-line flag, [yytext]
    and the unread input) and the two kinds of output: the standard output
    (the aggregate page) and the streams returned by [fopen].  A [FILE *]
    is the position of its stream in [streams]. *)

Inductive mode : Type :=
| INITIAL | OL | UL | BQ | FUNC_HEAD | FUNC_BODY | FUNC_EX
| UNIPARS | MAKE | TABLE.

Definition mode_eqb (a b : mode) : bool :=
  match a, b with
  | INITIAL, INITIAL | OL, OL | UL, UL | BQ, BQ | FUNC_HEAD, FUNC_HEAD
  | FUNC_BODY, FUNC_BODY | FUNC_EX, FUNC_EX | UNIPARS, UNIPARS
  | MAKE, MAKE | TABLE, TABLE => true
  | _, _ => false
  end.

Record stream : Type := {
  s_path : cstring;
  s_data : cstring;
  s_open : bool
}.

Record state : Type := {
  yy_start : mode;
  yy_at_bol : bool;
  yytext : cstring;
  yy_input : cstring;
  g_buf : cstring;
  g_def_file : option nat;
  stdout : cstring;
  streams : list stream;
  man3 : bool
}.

Definition set_start (m : mode) (st : state) : state :=
  {| yy_start := m; yy_at_bol := yy_at_bol st; yytext := yytext st;
     yy_input := yy_input st; g_buf := g_buf st;
     g_def_file := g_def_file st; stdout := stdout st;
     streams := streams st; man3 := man3 st |}.

Definition set_scan (bol : bool) (text input : cstring) (st : state) : state :=
  {| yy_start := yy_start st; yy_at_bol := bol; yytext := text;
     yy_input := input; g_buf := g_buf st;
     g_def_file := g_def_file st; stdout := stdout st;
     streams := streams st; man3 := man3 st |}.

Definition set_g_buf (b : cstring) (st : state) : state :=
  {| yy_start := yy_start st; yy_at_bol := yy_at_bol st; yytext := yytext st;
     yy_input := yy_input st; g_buf := b;
     g_def_file := g_def_file st; stdout := stdout st;
     streams := streams st; man3 := man3 st |}.

Definition set_stdout (o : cstring) (st : state) : state :=
  {| yy_start := yy_start st; yy_at_bol := yy_at_bol st; yytext := yytext st;
     yy_input := yy_input st; g_buf := g_buf st;
     g_def_file := g_def_file st; stdout := o;
     streams := streams st; man3 := man3 st |}.

Definition set_files (f : option nat) (ss : list stream) (dir : bool)
    (st : state) : state :=
  {| yy_start := yy_start st; yy_at_bol := yy_at_bol st; yytext := yytext st;
     yy_input := yy_input st; g_buf := g_buf st;
     g_def_file := f; stdout := stdout st;
     streams := ss; man3 := dir |}.

Definition action : Type := state -> result state.

(** [BEGIN(m)] *)
Definition BEGIN (m : mode) : action := fun st => Ret (set_start m st).

(** [yyless(0)]: the whole of [yytext] goes back to the input. *)
Definition yyless0 : action :=
  fun st => Ret (set_scan (yy_at_bol st) [] (yytext st ++ yy_input st) st).

(** [printf] to the standard output. *)
Definition printf (s : cstring) : action :=
  fun st => Ret (set_stdout (stdout st ++ s) st).

(** [fprintf(g_def_file, ...)] *)
Fixpoint stream_write (ss : list stream) (h : nat) (s : cstring)
  : option (list stream) :=
  match ss, h with
  | [], _ => None
  | f :: ss', O =>
      if s_open f
      then Some ({| s_path := s_path f; s_data := s_data f ++ s;
                    s_open := true |} :: ss')
      else None
  | f :: ss', S h' => option_map (cons f) (stream_write ss' h' s)
  end.

Definition fprintf_def (s : cstring) : action :=
  fun st =>
    match g_def_file st with
    | None => Crash
    | Some h =>
        match stream_write (streams st) h s with
        | Some ss => Ret (set_files (g_def_file st) ss (man3 st) st)
        | None => Crash
        end
    end.

(** [fclose] *)
Fixpoint stream_close (ss : list stream) (h : nat) : option (list stream) :=
  match ss, h with
  | [], _ => None
  | f :: ss', O =>
      if s_open f
      then Some ({| s_path := s_path f; s_data := s_data f;
                    s_open := false |} :: ss')
      else None
  | f :: ss', S h' => option_map (cons f) (stream_close ss' h')
  end.

(** The number of streams that are open. *)
Definition open_count (ss : list stream) : nat :=
  List.length (filter s_open ss).

(** [open_deffile]: [mkdir] and [fopen] belong to the operating system and
    are taken to succeed; [snprintf] keeps at most [FILEBUFLEN - 1]
    characters of the path.  The new stream is returned and left to the
    caller to store.  A stream is the [FILE] object, not the file of the
    disk: what [fopen] with mode [w] does to a file already written under
    the same path (it truncates it) is not modelled. *)
Definition open_deffile (name : cstring) (st : state) : nat * state :=
  let path := firstn (FILEBUFLEN - 1) (cstr "man3/" ++ name ++ cstr ".3") in
  let f := {| s_path := path; s_data := []; s_open := true |} in
  (List.length (streams st),
   set_files (g_def_file st) (streams st ++ [f]) true st).

(** ** The accumulation buffer *)

Definition bstart : action :=
  fun st =>
    if BUFLEN <=? strlen (yytext st) then Die "buffer overrun"
    else Ret (set_g_buf (yytext st) st).

Definition bappend : action :=
  fun st =>
    if BUFLEN <=? strlen (g_buf st) + strlen (yytext st)
    then Die "buffer overrun"
    else Ret (set_g_buf (g_buf st ++ yytext st) st).

Definition bclear : action := fun st => Ret (set_g_buf [] st).

(** ** Block emitters *)

Definition bstrlib_head : action :=
  fun st =>
    st <- printf (cstr ".TH BSTRLIB 3\n") st ;;
    printf (cstr ".SH NAME\nbstrlib \\- the better string library\n") st.

(** [heading] upper-cases [yytext] in place when [level] is 1. *)
Definition heading (level : Z) : action :=
  fun st =>
    macro <- (if level =? 1 then Ret (cstr ".SH")
              else if 1 <? level then Ret (cstr ".SS")
              else Die "bad heading level") ;;
    let st := if level =? 1
              then set_scan (yy_at_bol st) (str2upper (yytext st))
                     (yy_input st) st
              else st in
    match index (yytext st) nl with
    | None => Die "no newline in heading"
    | Some n => printf (macro ++ [space] ++ firstn (n + 1) (yytext st)) st
    end.

Definition par (s : cstring) : action :=
  fun st =>
    s <- trim_leading_spaces s ;;
    s <- esc s ;;
    printf (cstr ".P\n" ++ s) st.

(** The test of [ol] on the character after the first newline: the item
    hangs unless that character exists and is not a space. *)
Definition ol_hanging (s : cstring) : bool :=
  match index s nl with
  | Some n =>
      if (Z.of_nat (n + 1) <? strlen s)
         && negb (is_char (nth (n + 1) s NUL) space)
      then false else true
  | None => true
  end.

Definition ol : action :=
  fun st =>
    let s := g_buf st in
    if strlen s =? 0 then Ret st
    else
      let hanging := ol_hanging s in
      s <- trim_leading_spaces s ;;
      s <- esc s ;;
      let label_len := strspn s (cstr "0123456789.)") in
      if Nat.eqb label_len 0 then Die "can't find ol marker"
      else
        let ws_len := strspn (skipn label_len s) [space] in
        st <- (if hanging
               then printf (cstr ".TP\n" ++ firstn label_len s ++ [nl]
                            ++ skipn (label_len + ws_len) s) st
               else par s st) ;;
        bclear st.

Definition ul : action :=
  fun st =>
    let s := g_buf st in
    if strlen s =? 0 then Ret st
    else
      s <- esc s ;;
      s <- trim_leading_spaces s ;;
      let prefix_len := strspn s (cstr "- ") in
      st <- printf (cstr ".TP\n-\n" ++ skipn prefix_len s) st ;;
      bclear st.

Definition bq : action :=
  fun st =>
    let s := g_buf st in
    if strlen s =? 0 then Ret st
    else
      s <- esc s ;;
      let init_indent := Z.of_nat (strspn s [space]) in
      s <- indent s (4 - init_indent) ;;
      st <- printf (cstr "\n.EX\n" ++ s ++ cstr ".EE\n") st ;;
      bclear st.

Definition nf (s : cstring) : action :=
  fun st =>
    s <- esc s ;;
    printf (cstr "\n.nf\n" ++ s ++ cstr ".fi\n") st.

Definition macrodesc (s : cstring) : action :=
  fun st =>
    s <- esc s ;;
    s <- trim_leading_spaces s ;;
    match index s nl with
    | None => Die "Probably not a compilation macro description"
    | Some taglen =>
        let desc_offset :=
          (taglen + strspn (skipn taglen s) (cstr " -\n"))%nat in
        printf (cstr ".TP\n" ++ firstn taglen s ++ [nl]
                ++ skipn desc_offset s) st
    end.

(** ** The function-page emitter *)

(** The loop of [func_name] that steps back over the parenthesis and the
    spaces that end the match. *)
Fixpoint name_end (text : cstring) (eo : nat) : nat :=
  match eo with
  | O => O
  | S eo' =>
      let c := nth eo text NUL in
      if negb (is_char c "(") && negb (is_char c space) then eo
      else name_end text eo'
  end.

Definition func_name (text : cstring) : result cstring :=
  match regexec FUNC_RE text with
  | None => Die "No match"
  | Some (rm_so, rm_eo) =>
      let eo := name_end text (rm_eo - 1) in
      let len := (eo + 1 - rm_so)%nat in
      Ret (firstn len (skipn rm_so text))
  end.

(** Unary minus on a [size_t] and the conversion of the result to [int]. *)
Definition neg_size_t (n : Z) : Z := (2 ^ 64 - n) mod 2 ^ 64.
Definition to_int (z : Z) : Z :=
  let w := z mod 2 ^ 32 in if w <? 2 ^ 31 then w else w - 2 ^ 32.

Definition ext : cstring := cstr "extern ".

(** The block of [func_head] that hides the [extern] qualifier; [s] is the
    prototype after [indent] and [esc].  Without a newline after the
    qualifier [index] returns NULL, which [strlen] then reads. *)
Definition strip_extern (s : cstring) : result cstring :=
  match strstr s ext with
  | None => Ret s
  | Some loc =>
      let s := skipn (loc + List.length ext) s in
      match index s nl with
      | None => Crash
      | Some n =>
          let next := skipn (n + 1) s in
          if strlen ext <? strlen next
          then Ret (firstn (n + 1) s ++ skipn (List.length ext) next)
          else Ret s
      end
  end.

(** The prototype as [func_head] prints it in the synopsis: [indent] by
    [-strspn(yytext, " ")], [esc], then the [extern] block. *)
Definition func_synopsis (text : cstring) : result cstring :=
  s <- indent text (to_int (neg_size_t (Z.of_nat (strspn text [space])))) ;;
  s <- esc s ;;
  strip_extern s.

Definition func_head : action :=
  fun st =>
    name <- func_name (yytext st) ;;
    let upper := str2upper name in
    s <- func_synopsis (yytext st) ;;
    let (f, st) := open_deffile name st in
    let st := set_files (Some f) (streams st) (man3 st) st in
    st <- fprintf_def (cstr ".TH " ++ upper ++ cstr " 3\n") st ;;
    st <- fprintf_def (cstr ".SH NAME\n" ++ name
                       ++ cstr " \\- bstrlib function\n") st ;;
    st <- fprintf_def (cstr ".SH SYNOPSIS\n.EX\n" ++ s ++ cstr "\n.EE\n") st ;;
    fprintf_def (cstr ".SH DESCRIPTION\n") st.

Definition func_par : action :=
  fun st =>
    s <- esc (yytext st) ;;
    s <- trim_leading_spaces s ;;
    fprintf_def (cstr ".P\n" ++ s) st.

Definition func_ex : action :=
  fun st =>
    s <- esc (yytext st) ;;
    let init_indent := Z.of_nat (strspn s [space]) in
    s <- indent s (4 - init_indent) ;;
    fprintf_def (cstr ".br\n.EX\n" ++ s ++ cstr ".EE\n") st.

(** [fclose] is taken to succeed on an open stream. *)
Definition func_exit : action :=
  fun st =>
    match g_def_file st with
    | None => Crash
    | Some h =>
        match stream_close (streams st) h with
        | Some ss => Ret (set_files (g_def_file st) ss (man3 st) st)
        | None => Crash
        end
    end.

(** ** The rules section *)

Fixpoint Seq (rs : list regex) : regex :=
  match rs with
  | [] => Eps
  | [r] => r
  | r :: rs' => Cat r (Seq rs')
  end.

Definition Nl : regex := Chr nl.
Definition Sp : regex := Chr space.
Definition Dot : regex := Cls dot.
Definition not_blank : cclass :=
  neg (union (one space) (union (one tab) (one nl))).
(** [[A-Z0-9_]] and [[a-zA-Z0-9_]] *)
Definition macro_char : cclass :=
  union (range "A" "Z") (union (range "0" "9") (one "_")).
Definition file_char : cclass :=
  union (range "a" "z") macro_char.

(** [HWS  [ \t]] *)
Definition HWS : regex := Cls (union (one space) (one tab)).
(** [NONBLANK ({HWS}*[^ \t\n].*\n)] *)
Definition NONBLANK : regex := Seq [Star HWS; Cls not_blank; Star Dot; Nl].
(** [OL_MARKER [).]] *)
Definition OL_MARKER : regex := Cls (union (one ")") (one ".")).

(** The second component of a pattern says whether it opens with the
    beginning-of-line anchor.  flex reads [^] as the anchor at the start of
    a rule only, where it holds for the whole rule; the [^] that opens the
    third alternative of the function-page rule is an ordinary character. *)
Definition pat_title : regex :=
  Lit (cstr "Better String library\n---------------------\n").
Definition pat_func_trigger : regex :=
  Alt (Alt (Seq [Rep 4 Sp; AtLeast 5 (Chr "."); Nl; Nl])
           (Seq [Lit (cstr "The functions\n"); AtLeast 5 (Chr "-"); Nl; Nl]))
      (Seq [Lit (cstr "^The macros\n\n"); Plus NONBLANK; Nl; Nl]).
Definition pat_func_end : regex := Seq [AtLeast 5 (Chr "="); Nl].
Definition pat_lines : regex := Plus NONBLANK.
Definition pat_func_colon : regex :=
  Seq [Star NONBLANK; Star HWS; Cls not_blank; Star Dot; Chr ":"; Nl; Nl].
Definition pat_unicode : regex :=
  Seq [Lit (cstr "Unicode functions\n"); AtLeast 3 (Chr "-"); Nl; Nl].
Definition pat_unipars_end : regex :=
  Seq [Plus Sp; AtLeast 3 (Chr "."); Nl; Nl].
Definition pat_h1 : regex :=
  Seq [AtLeast 3 Dot; Nl; AtLeast 3 (Chr "-"); Nl].
Definition pat_h2 : regex :=
  Seq [AtLeast 3 Dot; Nl; AtLeast 3 (Chr "."); Nl].
Definition pat_divider : regex := Seq [AtLeast 3 (Chr "="); Nl].
Definition pat_blank : regex := Seq [Star HWS; Nl].
Definition pat_ol : regex :=
  Seq [Star Sp; Plus (Cls cls_digit); OL_MARKER; Sp; Star Dot; Nl].
Definition pat_more : regex := Seq [Plus Dot; Nl].
Definition pat_ul : regex := Seq [Star Sp; Chr "-"; Sp; Star Dot; Nl].
Definition pat_bq : regex := Seq [AtLeast 4 Sp; Star Dot; Nl].
Definition pat_bq_end : regex := Seq [Nl; UpTo 3 Sp; Cls (neg (one space))].
Definition pat_make : regex :=
  Seq [Lit (cstr "BSTRDIR = "); Plus Dot; Nl; Plus NONBLANK; Nl].
Definition pat_make_more : regex :=
  Seq [NONBLANK; Chr tab; Plus Dot; Nl; Plus NONBLANK; Nl].
Definition pat_table : regex :=
  Seq [NONBLANK; AtLeast 2 (Cat (Star Sp) (AtLeast 3 (Chr "-")));
       Star Sp; Nl; Star NONBLANK].
Definition pat_table_more : regex :=
  Alt (Seq [Star Dot; AtLeast 3 Sp; Star Dot; Nl]) Nl.
Definition pat_ack : regex :=
  Seq [Star NONBLANK; Lit (cstr "Bjorn Augestad\n"); Star NONBLANK].
Definition pat_macrodesc : regex :=
  Seq [Lit (cstr "BSTRLIB_"); Plus (Cls macro_char); Nl; Nl;
       Plus NONBLANK; Nl].
Definition pat_files : regex :=
  Seq [Opt NONBLANK;
       Plus (Seq [Plus (Cls file_char); Chr ".";
                  Plus (Cls (range "a" "z")); AtLeast 2 Sp; Chr "-"; Sp;
                  Plus Dot; Nl])].
(** [[[:^space:]]{-}[[:digit:]]{-}[-].*\n(.+\n)*] *)
Definition pat_par : regex :=
  Seq [Cls (diff (diff (neg cls_space) cls_digit) (one "-")); Star Dot; Nl;
       Star (Seq [Plus Dot; Nl])].

Definition seq_act (a b : action) : action := fun st => st <- a st ;; b st.
Infix ">>" := seq_act (at level 60, right associativity).

Definition skip : action := fun st => Ret st.

Record rule : Type := {
  r_line : nat;             (* line of the rule in manify.c *)
  r_sc : list mode;         (* start conditions, [] when none is written *)
  r_bol : bool;             (* beginning-of-line anchor *)
  r_pat : regex;
  r_act : action
}.

Definition rules : list rule := [
  {| r_line := 412; r_sc := []; r_bol := false; r_pat := pat_title;
     r_act := bstrlib_head >> heading 1 |};
  {| r_line := 415; r_sc := [INITIAL; FUNC_BODY]; r_bol := true;
     r_pat := pat_func_trigger; r_act := BEGIN FUNC_HEAD |};
  {| r_line := 416; r_sc := [FUNC_BODY]; r_bol := false;
     r_pat := pat_func_end; r_act := func_exit >> BEGIN INITIAL |};
  {| r_line := 417; r_sc := [FUNC_HEAD]; r_bol := false;
     r_pat := pat_lines; r_act := func_head >> BEGIN FUNC_BODY |};
  {| r_line := 419; r_sc := [FUNC_BODY]; r_bol := false;
     r_pat := pat_func_colon; r_act := func_par >> BEGIN FUNC_EX |};
  {| r_line := 420; r_sc := [FUNC_EX]; r_bol := false;
     r_pat := pat_lines; r_act := func_ex >> BEGIN FUNC_BODY |};
  {| r_line := 421; r_sc := [FUNC_BODY]; r_bol := false;
     r_pat := pat_lines; r_act := func_par |};
  {| r_line := 423; r_sc := [FUNC_BODY]; r_bol := false;
     r_pat := Nl; r_act := skip |};
  {| r_line := 427; r_sc := []; r_bol := false; r_pat := pat_unicode;
     r_act := heading 1 >> BEGIN UNIPARS |};
  {| r_line := 428; r_sc := [UNIPARS]; r_bol := false;
     r_pat := pat_unipars_end; r_act := yyless0 >> BEGIN INITIAL |};
  {| r_line := 429; r_sc := [UNIPARS]; r_bol := false; r_pat := pat_lines;
     r_act := fun st => par (yytext st) st |};
  {| r_line := 431; r_sc := []; r_bol := true; r_pat := pat_h1;
     r_act := heading 1 |};
  {| r_line := 432; r_sc := []; r_bol := true; r_pat := pat_h2;
     r_act := heading 2 |};
  {| r_line := 434; r_sc := []; r_bol := true; r_pat := pat_divider;
     r_act := skip |};
  {| r_line := 436; r_sc := []; r_bol := false; r_pat := pat_blank;
     r_act := skip |};
  {| r_line := 439; r_sc := [INITIAL; OL]; r_bol := false; r_pat := pat_ol;
     r_act := ol >> bstart >> BEGIN OL |};
  {| r_line := 440; r_sc := [OL]; r_bol := false; r_pat := pat_more;
     r_act := bappend |};
  {| r_line := 441; r_sc := [OL]; r_bol := false; r_pat := Nl;
     r_act := ol >> BEGIN INITIAL |};
  {| r_line := 445; r_sc := [INITIAL; UL]; r_bol := false; r_pat := pat_ul;
     r_act := ul >> bstart >> BEGIN UL |};
  {| r_line := 446; r_sc := [UL]; r_bol := false; r_pat := pat_more;
     r_act := bappend |};
  {| r_line := 447; r_sc := [UL]; r_bol := false; r_pat := Nl;
     r_act := ul >> BEGIN INITIAL |};
  {| r_line := 451; r_sc := [INITIAL]; r_bol := false; r_pat := pat_bq;
     r_act := bstart >> BEGIN BQ |};
  {| r_line := 452; r_sc := [BQ]; r_bol := false; r_pat := pat_bq;
     r_act := bappend |};
  {| r_line := 453; r_sc := [BQ]; r_bol := false; r_pat := Nl;
     r_act := bappend |};
  {| r_line := 455; r_sc := [BQ]; r_bol := false; r_pat := pat_bq_end;
     r_act := bq >> yyless0 >> BEGIN INITIAL |};
  {| r_line := 459; r_sc := []; r_bol := false; r_pat := pat_make;
     r_act := bstart >> BEGIN MAKE |};
  {| r_line := 460; r_sc := [MAKE]; r_bol := false; r_pat := pat_make_more;
     r_act := bappend |};
  {| r_line := 461; r_sc := [MAKE]; r_bol := false; r_pat := pat_lines;
     r_act := (fun st => nf (g_buf st) st) >> bclear >> yyless0
              >> BEGIN INITIAL |};
  {| r_line := 463; r_sc := []; r_bol := false; r_pat := pat_table;
     r_act := bstart >> BEGIN TABLE |};
  {| r_line := 464; r_sc := [TABLE]; r_bol := false;
     r_pat := pat_table_more; r_act := bappend |};
  {| r_line := 465; r_sc := [TABLE]; r_bol := false; r_pat := NONBLANK;
     r_act := (fun st => nf (g_buf st) st) >> bclear >> yyless0
              >> BEGIN INITIAL |};
  {| r_line := 468; r_sc := []; r_bol := false; r_pat := pat_ack;
     r_act := fun st => nf (yytext st) st |};
  {| r_line := 471; r_sc := []; r_bol := false; r_pat := pat_macrodesc;
     r_act := fun st => macrodesc (yytext st) st |};
  {| r_line := 474; r_sc := []; r_bol := false; r_pat := pat_files;
     r_act := fun st => nf (yytext st) st |};
  {| r_line := 477; r_sc := []; r_bol := false; r_pat := pat_par;
     r_act := fun st => par (yytext st) st |}
].

(** The [<<EOF>>] rules (lines 442, 448 and 456); in the other start
    conditions the end of the input ends [yylex]. *)
Definition eof_rule (m : mode) : option action :=
  match m with
  | OL => Some (ol >> BEGIN INITIAL)
  | UL => Some (ul >> BEGIN INITIAL)
  | BQ => Some (bq >> BEGIN INITIAL)
  | _ => None
  end.

(** ** The generated scanner *)

(** Every start condition is exclusive ([%x]): a rule without start
    conditions is active in [INITIAL] only. *)
Definition rule_active (m : mode) (bol : bool) (r : rule) : bool :=
  (match r_sc r with
   | [] => mode_eqb m INITIAL
   | scs => existsb (mode_eqb m) scs
   end) && (if r_bol r then bol else true).

(** The length of the match of [r], when [r] is active. *)
Definition try_rule (m : mode) (bol : bool) (inp : cstring) (r : rule)
  : option nat :=
  if rule_active m bol r then match_len (r_pat r) inp else None.

(** A later rule replaces the best one only with a longer match. *)
Definition longer (r : rule) (len : option nat) (best : option (rule * nat))
  : option (rule * nat) :=
  match len, best with
  | Some n, Some (_, n0) => if Nat.ltb n0 n then Some (r, n) else best
  | Some n, None => Some (r, n)
  | None, _ => best
  end.

(** The active rule with the longest match, the first of them on a tie. *)
Fixpoint best_match (rs : list rule) (m : mode) (bol : bool) (inp : cstring)
    (best : option (rule * nat)) : option (rule * nat) :=
  match rs with
  | [] => best
  | r :: rs' => best_match rs' m bol inp (longer r (try_rule m bol inp r) best)
  end.

Definition find_rule (st : state) : option (rule * nat) :=
  best_match rules (yy_start st) (yy_at_bol st) (yy_input st) None.

(** [YY_RULE_SETUP]: [yytext] is the lexeme, and the beginning-of-line flag
    is taken from its last character, before the action runs. *)
Definition rule_setup (n : nat) (st : state) : state :=
  let text := firstn n (yy_input st) in
  let bol := match n with
             | O => yy_at_bol st
             | S n' => is_char (nth n' text NUL) nl
             end in
  set_scan bol text (skipn n (yy_input st)) st.

(** The default rule copies one unmatched character to the output. *)
Definition ECHO : action := fun st => printf (yytext st) st.

Inductive step_result : Type :=
| Finished (st : state)
| Continue (st : state)
| Failed (r : result state).

Definition continue (r : result state) : step_result :=
  match r with
  | Ret st => Continue st
  | _ => Failed r
  end.

(** One turn of the loop of [yylex]. *)
Definition yy_step (st : state) : step_result :=
  match yy_input st with
  | [] =>
      match eof_rule (yy_start st) with
      | Some act => continue (act (set_scan (yy_at_bol st) [] [] st))
      | None => Finished st
      end
  | _ :: _ =>
      match find_rule st with
      | Some (r, n) => continue (r_act r (rule_setup n st))
      | None => continue (ECHO (rule_setup 1 st))
      end
  end.

Fixpoint yylex_loop (fuel : nat) (st : state) : option (result state) :=
  match fuel with
  | O => None
  | S fuel' =>
      match yy_step st with
      | Finished st' => Some (Ret st')
      | Continue st' => yylex_loop fuel' st'
      | Failed r => Some r
      end
  end.

(** The number of turns left is bounded by twice the unread input: a turn
    that reads nothing leaves a start condition for [INITIAL]. *)
Definition turns (st : state) : nat :=
  (2 * List.length (yy_input st)
   + (if mode_eqb (yy_start st) INITIAL then 0 else 1) + 1)%nat.

Definition start_state (m : mode) (inp : cstring) : state :=
  {| yy_start := m; yy_at_bol := true; yytext := []; yy_input := inp;
     g_buf := []; g_def_file := None; stdout := []; streams := [];
     man3 := false |}.

Definition yylex_from (st : state) : option (result state) :=
  yylex_loop (turns st) st.

(** [main]: the scanner runs over the whole input from [INITIAL]. *)
Definition yylex (inp : cstring) : option (result state) :=
  yylex_from (start_state INITIAL inp).

(** [yy_steps n st]: the state after [n] turns of the loop. *)
Fixpoint yy_steps (n : nat) (st : state) : step_result :=
  match n with
  | O => Continue st
  | S n' =>
      match yy_step st with
      | Continue st' => yy_steps n' st'
      | r => r
      end
  end.

(** What an emitter prints when the accumulation buffer holds [buf]. *)
Definition emitted (a : action) (buf : cstring) : result cstring :=
  st <- a (set_g_buf buf (start_state INITIAL [])) ;;
  Ret (stdout st).

(** What a whole document prints on the standard output. *)
Definition page (inp : cstring) : option (result cstring) :=
  option_map (fun r => st <- r ;; Ret (stdout st)) (yylex inp).

(** [needs_escape s]: [s] holds a backslash, or an apostrophe or a period
    right after a newline. *)
Fixpoint needs_escape (s : cstring) : bool :=
  match s with
  | [] => false
  | c :: s' =>
      is_char c backslash
      || (is_char c nl
          && match s' with
             | d :: _ => is_quote_or_dot d
             | [] => false
             end)
      || needs_escape s'
  end.

(** The line of the rule that fires in [st], [None] for the default rule. *)
Definition fired (st : state) : option nat :=
  option_map (fun p => r_line (fst p)) (find_rule st).

(** The stores of a log that fall outside [g_esc_buf]. *)
Definition out_of_bounds (log : list (Z * ascii)) : list (Z * ascii) :=
  filter (fun p => BUFLEN <=? fst p) log.

Definition a_string (n : Z) : cstring := repeat "a"%char (Z.to_nat n).

(** The page that [func_head] writes for the symbol [name] with the
    synopsis [syn]. *)
Definition def_page (name syn : cstring) : stream :=
  {| s_path := firstn (FILEBUFLEN - 1) (cstr "man3/" ++ name ++ cstr ".3");
     s_data := (cstr ".TH " ++ str2upper name ++ cstr " 3\n")
               ++ (cstr ".SH NAME\n" ++ name ++ cstr " \\- bstrlib function\n")
               ++ (cstr ".SH SYNOPSIS\n.EX\n" ++ syn ++ cstr "\n.EE\n")
               ++ cstr ".SH DESCRIPTION\n";
     s_open := true |}.

(** ** What an action may do to the input

    The actions of the rules fall in two classes: those that leave the
    unread input alone, and those that end in [yyless(0); BEGIN(0)]. *)

Definition keeps_scan (a : action) : Prop :=
  forall st st', a st = Ret st' ->
    yy_input st' = yy_input st /\ yytext st' = yytext st.

Definition keeps_input (a : action) : Prop :=
  forall st st', a st = Ret st' -> yy_input st' = yy_input st.

Definition pushes_back (a : action) : Prop :=
  forall st st', a st = Ret st' ->
    yy_input st' = yytext st ++ yy_input st /\ yy_start st' = INITIAL.

Definition ends_in (m : mode) (a : action) : Prop :=
  forall st st', a st = Ret st' -> yy_start st' = m.

Definition rule_ok (r : rule) : Prop :=
  nullable (r_pat r) = false
  /\ (keeps_input (r_act r)
      \/ (pushes_back (r_act r)
          /\ forall m bol, rule_active m bol r = true -> m <> INITIAL)).

(** What a turn that goes on from [st] to [st'] has read.  At the end of
    the input an end-of-input rule has run and the scanner is back in
    [INITIAL].  Otherwise the rule with the longest match, of [n]
    characters, has either read them or pushed them back on its way from an
    exclusive start condition to [INITIAL]; when no rule matches, the
    default rule has read one character and copied it to the output. *)
Definition turn_reads (st st' : state) : Prop :=
  match yy_input st with
  | [] =>
      yy_input st' = [] /\ yy_start st <> INITIAL /\ yy_start st' = INITIAL
  | _ :: _ =>
      match find_rule st with
      | Some (r, n) =>
          (1 <= n <= List.length (yy_input st))%nat
          /\ match_len (r_pat r) (yy_input st) = Some n
          /\ (yy_input st' = skipn n (yy_input st)
              \/ (yy_input st' = yy_input st
                  /\ yy_start st <> INITIAL /\ yy_start st' = INITIAL))
      | None =>
          yy_input st' = skipn 1 (yy_input st)
          /\ stdout st' = stdout st ++ firstn 1 (yy_input st)
      end
  end.

(** A turn has read [n] characters of the input, and [n] is zero only for a
    turn that leaves an exclusive start condition for [INITIAL]. *)
Definition advances (st st' : state) : Prop :=
  exists n : nat,
    (n <= List.length (yy_input st))%nat
    /\ yy_input st' = skipn n (yy_input st)
    /\ (n = O -> yy_start st <> INITIAL /\ yy_start st' = INITIAL).

(** ** Lines

    The properties of the transforms are stated on the lines of a text:
    [lines s] cuts [s] after each newline, so that every line but perhaps
    the last ends with its newline and [List.concat (lines s)] is [s]. *)

Fixpoint lines (s : cstring) : list cstring :=
  match s with
  | [] => []
  | c :: s' =>
      if is_char c nl then [c] :: lines s'
      else match lines s' with
           | [] => [[c]]
           | l :: ls => (c :: l) :: ls
           end
  end.

(** A line without its leading spaces. *)
Definition trim_line (l : cstring) : cstring := skipn (strspn l [space]) l.

(** A line without its first [d] leading spaces, or without all of them
    when it has fewer. *)
Definition strip_line (d : nat) (l : cstring) : cstring :=
  skipn (Nat.min d (strspn l [space])) l.

Definition trim_text (s : cstring) : cstring :=
  List.concat (map trim_line (lines s)).

Definition unindent (d : nat) (s : cstring) : cstring :=
  List.concat (map (strip_line d) (lines s)).

(** The text that a loop has still to write when it stands before [s]:
    the first line is treated by [first], the others by [other]. *)
Definition rest_of_lines (first other : cstring -> cstring) (s : cstring)
  : cstring :=
  match lines s with
  | [] => []
  | l :: ls => first l ++ List.concat (map other ls)
  end.

(** Whether a text starts with a space. *)
Definition starts_with_space (s : cstring) : bool :=
  match s with
  | c :: _ => is_char c space
  | [] => false
  end.

(** How a loop that has written [out], [dst] characters, ends when [r] is
    left to write: the buffer holds [BUFLEN - 1] characters and the NUL. *)
Definition finish (msg : string) (dst : Z) (out r : cstring)
  : result cstring :=
  if dst + strlen r <? BUFLEN then Ret (rev out ++ r) else Die msg.

(** Whether a text starts where a line starts for [indent]: it is empty, or
    its first character is a space or a newline. *)
Definition at_line_start (s : cstring) : bool :=
  match s with
  | [] => true
  | c :: _ => is_char c space || is_char c nl
  end.

(** What [indent] does to the first line when it stands in it with [j]
    spaces still to strip and the flag [spaceAfterNewline] at [san]. *)
Definition first_line (san : bool) (j : nat) : cstring -> cstring :=
  if san then strip_line j else fun l => l.

(** The text [esc] builds when it is not stopped: each character, behind a
    backslash when it is a backslash or a line-leading apostrophe or
    period. *)
Fixpoint esc_text (prev : option ascii) (s : cstring) : cstring :=
  match s with
  | [] => []
  | c :: s' =>
      (if is_char c backslash then [backslash] else [])
      ++ (if is_quote_or_dot c && after_newline prev then [backslash]
          else [])
      ++ c :: esc_text (Some c) s'
  end.

(** [unesc] undoes [esc]: a backslash is dropped and the character that
    follows it is kept as it is. *)
Fixpoint unesc (s : cstring) : cstring :=
  match s with
  | [] => []
  | c :: s' =>
      if is_char c backslash then
        match s' with
        | d :: s'' => d :: unesc s''
        | [] => [c]
        end
      else c :: unesc s'
  end.

(** [line_mark s]: some newline of [s] is followed by an apostrophe or a
    period. *)
Fixpoint line_mark (s : cstring) : bool :=
  match s with
  | [] => false
  | c :: s' =>
      (is_char c nl
       && match s' with
          | d :: _ => is_quote_or_dot d
          | [] => false
          end)
      || line_mark s'
  end.

(** The start conditions in which a block is being accumulated in
    [g_buf]. *)
Definition accumulating (m : mode) : bool :=
  match m with
  | OL | UL | BQ | MAKE | TABLE => true
  | _ => false
  end.

(** The accumulation buffer fits its array, and is empty outside the
    accumulating start conditions. *)
Definition buf_inv (st : state) : Prop :=
  strlen (g_buf st) < BUFLEN
  /\ (accumulating (yy_start st) = false -> g_buf st = []).

(** The start conditions in which the actions write to [g_def_file]. *)
Definition in_func (m : mode) : bool :=
  match m with
  | FUNC_BODY | FUNC_EX => true
  | _ => false
  end.

(** Whether the stream [h] exists and is open. *)
Definition stream_open (ss : list stream) (h : nat) : bool :=
  match nth_error ss h with
  | Some f => s_open f
  | None => false
  end.

(** Inside a function page [g_def_file] is an open stream. *)
Definition func_inv (st : state) : Prop :=
  in_func (yy_start st) = true ->
  exists h : nat, g_def_file st = Some h /\ stream_open (streams st) h = true.

(** A text that ends with a newline. *)
Definition ends_nl (s : cstring) : Prop := last s NUL = nl.

(** The characters of a name after its first one, as [FUNC_RE] has them. *)
Definition name_char : cclass :=
  union (range "a" "z")
    (union (range "A" "Z") (union (range "0" "9") (one "-"))).

(** The states of a run over [inp]: the state after some number of turns
    of the scanner's loop.  The state that [yylex] returns is one of
    them. *)
Definition reachable (inp : cstring) (st : state) : Prop :=
  exists n : nat, yy_steps n (start_state INITIAL inp) = Continue st.

(** In the block-quote start condition the buffer starts with the four
    spaces of the rule that entered it. *)
Definition bq_inv (st : state) : Prop :=
  yy_start st = BQ -> (4 <= strspn (g_buf st) [space])%nat.

(** * Properties *)

(** Closed statements are settled by evaluation, one conjunct at a time. *)
Ltac evaluate :=
  repeat match goal with |- _ /\ _ => split end; vm_compute; reflexivity.

(** ** The text transforms on small inputs *)

Example esc_example :
  esc (cstr "a\\b\n.c\n'd.e") = Ret (cstr "a\\\\b\n\\.c\n\\'d.e").
Proof. reflexivity. Qed.

Example trim_example :
  trim_leading_spaces (cstr "  a b\n   c\n\n d") = Ret (cstr "a b\nc\n\nd").
Proof. reflexivity. Qed.

Example indent_example :
  indent (cstr "      a\n    b\n  c\n") (-4) = Ret (cstr "  a\nb\nc\n").
Proof. reflexivity. Qed.

Example func_name_example :
  func_name (cstr "    extern int bassign (bstring a, const_bstring b);\n")
  = Ret (cstr "bassign").
Proof. reflexivity. Qed.

(** ** The bound of [esc] *)

(** C1 (the code departs from the claim): [esc] tests [dst > BUFLEN] once
    per input character and never before the terminating NUL.  A string of
    5000 characters is escaped without an abort and its NUL is stored at
    index 5000; with 5001 characters a character and the NUL are stored at
    5000 and 5001 and [esc] still returns; with 5002 the abort comes after
    the store at index 5000.  A line of the files list of 5000 characters
    reaches [esc] through [nf] and the run ends without an error. *)
Theorem esc_stores_past_capacity :
  (esc (a_string 5000) = Ret (a_string 5000)
   /\ out_of_bounds (esc_stores (a_string 5000)) = [(5000, NUL)])
  /\ (esc (a_string 5001) = Ret (a_string 5001)
      /\ out_of_bounds (esc_stores (a_string 5001))
         = [(5000, "a"%char); (5001, NUL)])
  /\ (esc (a_string 5002) = Die "buffer overrun"
      /\ out_of_bounds (esc_stores (a_string 5002)) = [(5000, "a"%char)])
  /\ (let line := cstr "a.c  - " ++ a_string 4992 ++ [nl] in
      strlen line = BUFLEN
      /\ fired (start_state INITIAL line) = Some 474%nat
      /\ page line = Some (Ret (cstr "\n.nf\n" ++ line ++ cstr ".fi\n"))).
Proof. cbv zeta. evaluate. Qed.

(** ** indent *)

(** C4 (the code departs from the claim): with a positive [delta] each
    space that [indent] writes takes the place of an input character, so
    the first [delta] characters of a line are lost instead of being
    shifted; with a negative [delta] a space that follows the first
    character of the text is stripped although it does not lead the line.
    [func_ex] calls [indent] with a positive [delta] on an example that is
    indented by less than four spaces: the example [abc] of a function page
    comes out as four spaces, its newline overwritten as well. *)
Theorem indent_overwrites_line_start :
  indent (cstr "abc\n") 2 = Ret (cstr "  c\n")
  /\ indent (cstr "abc\ndef\n") 1 = Ret (cstr " bc\n ef\n")
  /\ indent (cstr "a b") (-1) = Ret (cstr "ab")
  /\ indent (cstr "abc\n") 4 = Ret (cstr "    ")
  /\ option_map
       (fun r => st <- r ;; Ret (map s_data (streams st)))
       (yylex (cstr "The functions\n-----\n\nint bfoo (void);\n\n"
               ++ cstr "Example:\n\nabc\n"))
     = Some (Ret [cstr ".TH BFOO 3\n.SH NAME\nbfoo \\- bstrlib function\n"
                  ++ cstr ".SH SYNOPSIS\n.EX\nint bfoo (void);\n\n.EE\n"
                  ++ cstr ".SH DESCRIPTION\n"
                  ++ cstr ".P\nExample:\n\n"
                  ++ cstr ".br\n.EX\n" ++ cstr "    " ++ cstr ".EE\n"]).
Proof. evaluate. Qed.

(** ** Ordered lists *)

(** C5, as the claim states it, fails: the body of the tagged block does
    not start with the indented second line. *)
Lemma ol_hanging_body_keeps_no_indent :
  ~ exists rest,
      emitted ol (cstr "1. foo\n   bar\n")
      = Ret (cstr ".TP\n" ++ cstr "1." ++ [nl] ++ cstr "foo\n   bar\n" ++ rest).
Proof.
  intros [rest H]. vm_compute in H. discriminate H.
Qed.

(** C5 (amended): the item whose second line is indented is emitted as a
    tagged block with tag [1.] and body [foo\nbar\n], its lines trimmed of
    their leading spaces; the item whose second line is not indented is
    emitted as a plain paragraph holding the two lines.  The scanner
    accumulates both items as such. *)
Theorem ol_hanging_detection :
  ol_hanging (cstr "1. foo\n   bar\n") = true
  /\ emitted ol (cstr "1. foo\n   bar\n")
     = Ret (cstr ".TP\n" ++ cstr "1." ++ [nl] ++ cstr "foo\nbar\n")
  /\ ol_hanging (cstr "1. foo\nbar\n") = false
  /\ emitted ol (cstr "1. foo\nbar\n")
     = Ret (cstr ".P\n" ++ cstr "1. foo\nbar\n")
  /\ page (cstr "1. foo\n   bar\n\n") = Some (Ret (cstr ".TP\n1.\nfoo\nbar\n"))
  /\ page (cstr "1. foo\nbar\n\n") = Some (Ret (cstr ".P\n1. foo\nbar\n")).
Proof. evaluate. Qed.

(** ** The function page *)

(** C7: for the block [extern bstrFoo (const char * s);] the name is
    [bstrFoo]; the synopsis is the prototype without its first seven
    characters, the qualifier and its space, so that the rest starts in
    the first column; the page is written to [man3/bstrFoo.3]. *)
Theorem func_head_strips_extern :
  let block := cstr "extern bstrFoo (const char * s);\n" in
  func_name block = Ret (cstr "bstrFoo")
  /\ func_synopsis block = Ret (skipn (List.length ext) block)
  /\ func_synopsis block = Ret (cstr "bstrFoo (const char * s);\n")
  /\ exists st,
       func_head (set_scan true block [] (start_state FUNC_HEAD [])) = Ret st
       /\ g_def_file st = Some O
       /\ streams st =
          [{| s_path := cstr "man3/bstrFoo.3";
              s_data := cstr ".TH BSTRFOO 3\n"
                        ++ cstr ".SH NAME\nbstrFoo \\- bstrlib function\n"
                        ++ cstr ".SH SYNOPSIS\n.EX\n"
                        ++ cstr "bstrFoo (const char * s);\n"
                        ++ cstr "\n.EE\n"
                        ++ cstr ".SH DESCRIPTION\n";
              s_open := true |}].
Proof.
  cbv zeta. do 3 (split; [evaluate|]).
  eexists. split; [vm_compute; reflexivity|]. evaluate.
Qed.

(** ** Block quotes *)

(** C8: from the default mode the first two turns accumulate the two
    indented lines, the third fires the rule of line 455, which emits the
    example block with the two lines at their indent of four spaces and
    pushes its lexeme back: the blank line and [not indented] are unread
    and the scanner is in [INITIAL], where the blank line is eaten and the
    line becomes a paragraph. *)
Theorem bq_block_then_pushback :
  let inp := cstr "    line one\n    line two\n\nnot indented\n" in
  fired (start_state INITIAL inp) = Some 451%nat
  /\ (exists st2,
        yy_steps 2 (start_state INITIAL inp) = Continue st2
        /\ yy_start st2 = BQ
        /\ g_buf st2 = cstr "    line one\n    line two\n"
        /\ fired st2 = Some 455%nat)
  /\ (exists st3,
        yy_steps 3 (start_state INITIAL inp) = Continue st3
        /\ stdout st3
           = cstr "\n.EX\n" ++ cstr "    line one\n    line two\n"
             ++ cstr ".EE\n"
        /\ yy_start st3 = INITIAL
        /\ yy_input st3 = cstr "\nnot indented\n"
        /\ g_buf st3 = [])
  /\ page inp
     = Some (Ret (cstr "\n.EX\n    line one\n    line two\n.EE\n"
                  ++ cstr ".P\nnot indented\n")).
Proof.
  cbv zeta. split; [evaluate|].
  split; [eexists; split; [vm_compute; reflexivity|evaluate]|].
  split; [eexists; split; [vm_compute; reflexivity|evaluate]|].
  evaluate.
Qed.

(** ** Per-symbol streams *)

(** C2 (the code departs from the claim): the rule of line 415 is also
    active in [FUNC_BODY] and only enters [FUNC_HEAD]; it does not call
    [func_exit].  With two functions separated by a dotted divider the
    divider is read in [FUNC_BODY] while the stream of the first function
    is open, [func_head] then opens the stream of the second one, and two
    streams are open; the closing line of [=] closes the second one only. *)
Theorem second_page_opens_before_first_closes :
  let doc := cstr "The functions\n-------------\n\n"
             ++ cstr "    extern int bfoo (void);\n\n    Desc foo.\n\n"
             ++ cstr "    ..........\n\n"
             ++ cstr "    extern int bbar (void);\n\n    Desc bar.\n\n" in
  (exists st5,
     yy_steps 5 (start_state INITIAL doc) = Continue st5
     /\ yy_start st5 = FUNC_BODY
     /\ map s_open (streams st5) = [true]
     /\ fired st5 = Some 415%nat)
  /\ (exists st7,
        yy_steps 7 (start_state INITIAL doc) = Continue st7
        /\ map s_path (streams st7) = [cstr "man3/bfoo.3"; cstr "man3/bbar.3"]
        /\ map s_open (streams st7) = [true; true]
        /\ open_count (streams st7) = 2%nat)
  /\ (exists st,
        yylex (doc ++ cstr "=====\n") = Some (Ret st)
        /\ map s_open (streams st) = [true; false]).
Proof.
  cbv zeta.
  split; [eexists; split; [vm_compute; reflexivity|evaluate]|].
  split; [eexists; split; [vm_compute; reflexivity|evaluate]|].
  eexists; split; [vm_compute; reflexivity|evaluate].
Qed.

(** ** Escaping of the emitted text *)

(** C3 (the code departs from the claim): [ul] and [func_par] call [esc]
    before [trim_leading_spaces], so a period or an apostrophe that follows
    the indentation of a line is not seen as leading by [esc] and leads the
    line once the indentation is trimmed; [par] trims first and escapes
    the same period. *)
Theorem ul_and_func_par_escape_before_trim :
  emitted ul (cstr "- foo\n  .bar\n") = Ret (cstr ".TP\n-\n" ++ cstr "foo\n.bar\n")
  /\ page (cstr "- foo\n  .bar\n\n") = Some (Ret (cstr ".TP\n-\nfoo\n.bar\n"))
  /\ (exists st,
        yylex (cstr "The functions\n-----\n\nint bfoo (void);\n\n"
               ++ cstr "  Returns\n  'x' or\n  .5\n")
        = Some (Ret st)
        /\ map s_data (streams st)
           = [cstr ".TH BFOO 3\n.SH NAME\nbfoo \\- bstrlib function\n"
              ++ cstr ".SH SYNOPSIS\n.EX\nint bfoo (void);\n\n.EE\n"
              ++ cstr ".SH DESCRIPTION\n"
              ++ cstr ".P\n" ++ cstr "Returns\n'x' or\n.5\n"])
  /\ page (cstr "foo\n  .bar\n\n") = Some (Ret (cstr ".P\nfoo\n\\.bar\n")).
Proof.
  cbv zeta. do 2 (split; [evaluate|]).
  split; [eexists; split; [vm_compute; reflexivity|evaluate]|evaluate].
Qed.

(** ** End of input inside a block *)

(** C6 (the code departs from the claim): text that the rules have read
    is lost at the end of the input.  A table, or the Makefile example,
    that ends the document is accumulated in [g_buf] and never printed:
    the start conditions [TABLE] and [MAKE] have no end-of-input rule, so
    the scanner stops there with the block in the buffer and nothing on
    the output.  The other accumulating start conditions ([OL], [UL] and
    [BQ]) have an end-of-input rule (lines 442, 448 and 456) that emits
    the buffer, and the same table and example are printed when a
    paragraph follows them. *)
Theorem table_at_end_of_input_is_dropped :
  let table := cstr "Name      Value\n----      -----\none       1\n" in
  let make := cstr "BSTRDIR = ../bstrlib\nall:\n\n" in
  (exists st : state,
     yylex table = Some (Ret st)
     /\ yy_start st = TABLE /\ yy_input st = []
     /\ g_buf st = table /\ stdout st = [] /\ streams st = [])
  /\ (exists st : state,
        yylex make = Some (Ret st)
        /\ yy_start st = MAKE /\ yy_input st = []
        /\ g_buf st = make /\ stdout st = [] /\ streams st = [])
  /\ page (table ++ cstr "\nText.\n")
     = Some (Ret (cstr "\n.nf\n" ++ table ++ cstr "\n.fi\n"
                  ++ cstr ".P\nText.\n"))
  /\ page (make ++ cstr "Text.\n")
     = Some (Ret (cstr "\n.nf\n" ++ make ++ cstr ".fi\n"
                  ++ cstr ".P\nText.\n"))
  /\ page (cstr "    quoted\n") = Some (Ret (cstr "\n.EX\n    quoted\n.EE\n"))
  /\ page (cstr "1. one\n") = Some (Ret (cstr ".TP\n1.\none\n"))
  /\ page (cstr "- one\n") = Some (Ret (cstr ".TP\n-\none\n")).
Proof.
  cbv zeta.
  split; [eexists; split; [vm_compute; reflexivity|evaluate]|].
  split; [eexists; split; [vm_compute; reflexivity|evaluate]|].
  evaluate.
Qed.

(** ** Counterexamples to claims as they are stated *)

(** The paragraph rule is no catch-all: a line that starts with a digit and
    is no list item is matched by no rule, the paragraph rule included; the
    default rule of the generated scanner copies its characters to the
    output one at a time until the paragraph rule applies. *)
Lemma digits_match_no_rule :
  let st := start_state INITIAL (cstr "42 apples\n") in
  find_rule st = None
  /\ match_len pat_par (yy_input st) = None
  /\ page (cstr "42 apples\n") = Some (Ret (cstr "42 " ++ cstr ".P\napples\n")).
Proof. cbv zeta. evaluate. Qed.

(** C9, as the claim states it, fails: a string without any character to
    escape is not returned when it is longer than the buffer. *)
Lemma esc_long_plain_string_aborts :
  needs_escape (a_string 5002) = false
  /\ esc (a_string 5002) = Die "buffer overrun"
  /\ esc (a_string 5002) <> Ret (a_string 5002).
Proof.
  split; [evaluate|]. split; [evaluate|].
  intros H. vm_compute in H. discriminate H.
Qed.

(** C10, as the claim states it, fails: the line that follows the first
    newline is [bfoo (], six characters, and seven characters are deleted
    all the same: that line, its newline, and nothing else only because
    the deletion stops there. *)
Lemma realign_ignores_line_length :
  let block := cstr "extern int\nbfoo (\nint a);\n" in
  func_name block = Ret (cstr "bfoo")
  /\ func_synopsis block = Ret (cstr "int\nint a);\n")
  /\ func_synopsis block <> Ret (cstr "int\nbfoo (\nint a);\n").
Proof.
  cbv zeta. do 2 (split; [evaluate|]).
  intros H. vm_compute in H. discriminate H.
Qed.

(** ** esc on text that needs no escape *)

Lemma is_char_eq (a c : ascii) : is_char a c = true <-> a = c.
Proof. unfold is_char. apply Ascii.eqb_eq. Qed.

Lemma strlen_cons (c : ascii) (s : cstring) : strlen (c :: s) = strlen s + 1.
Proof. unfold strlen. cbn [List.length]. lia. Qed.

Lemma strlen_nonneg (s : cstring) : 0 <= strlen s.
Proof. unfold strlen. lia. Qed.

(** [needs_escape] says what its name says: no backslash, and no newline
    followed by an apostrophe or a period. *)
Lemma needs_escape_false (s : cstring) :
  needs_escape s = false <->
  (~ In backslash s
   /\ forall pre c post,
        s = pre ++ nl :: c :: post -> c <> apostrophe /\ c <> period).
Proof.
  induction s as [|a s IH].
  - split; [|reflexivity]. intros _. split; [intros []|].
    intros [|? ?] c post H; discriminate H.
  - cbn [needs_escape]. rewrite !orb_false_iff, andb_false_iff, IH.
    split.
    + intros [[Hb Hn] [Hin Hs]]. split.
      * intros [E|E]; [|exact (Hin E)].
        subst a. unfold is_char in Hb. rewrite Ascii.eqb_refl in Hb.
        discriminate Hb.
      * intros [|p pre] c post E; cbn in E; injection E as Ea Es.
        -- subst a s. destruct Hn as [Hn|Hn].
           ++ unfold is_char in Hn. rewrite Ascii.eqb_refl in Hn.
              discriminate Hn.
           ++ unfold is_quote_or_dot in Hn. apply orb_false_iff in Hn.
              destruct Hn as [H1 H2]. split; intros ->; unfold is_char in *.
              ** rewrite Ascii.eqb_refl in H1. discriminate H1.
              ** rewrite Ascii.eqb_refl in H2. discriminate H2.
        -- exact (Hs pre c post Es).
    + intros [Hin Hs]. split; [split|split].
      * destruct (is_char a backslash) eqn:E; [|reflexivity].
        apply is_char_eq in E. exfalso. apply Hin. left. exact E.
      * destruct (is_char a nl) eqn:E; [right|left; reflexivity].
        apply is_char_eq in E. subst a. destruct s as [|d s']; [reflexivity|].
        destruct (Hs [] d s' eq_refl) as [H1 H2].
        unfold is_quote_or_dot. apply orb_false_iff.
        split; apply not_true_is_false; intros H; apply is_char_eq in H;
          congruence.
      * intros H. apply Hin. right. exact H.
      * intros pre c post E. apply (Hs (a :: pre) c post). cbn. now rewrite E.
Qed.

(** The loop of [esc] over text that needs no escape copies it and stays
    below the bound as long as the text fits. *)
Lemma esc_loop_plain (s : cstring) :
  forall (prev : option ascii) (b : esc_buf),
    needs_escape s = false ->
    (after_newline prev = true ->
     match s with
     | c :: _ => is_quote_or_dot c = false
     | [] => True
     end) ->
    esc_dst b + strlen s <= BUFLEN ->
    exists b',
      esc_loop prev s b = (b', Ret tt)
      /\ esc_dst b' = esc_dst b + strlen s
      /\ map snd (rev (esc_log b')) = map snd (rev (esc_log b)) ++ s.
Proof.
  induction s as [|c s IH]; intros prev b Hne Hprev Hfit.
  - exists b. cbn. rewrite app_nil_r. unfold strlen. cbn.
    repeat split; lia.
  - cbn [needs_escape] in Hne. apply orb_false_iff in Hne.
    destruct Hne as [Hne Hrest]. apply orb_false_iff in Hne.
    destruct Hne as [Hbs Hnl].
    rewrite strlen_cons in Hfit. pose proof (strlen_nonneg s) as Hpos.
    cbn [esc_loop].
    replace (BUFLEN <? esc_dst b) with false
      by (symmetry; apply Z.ltb_ge; lia).
    rewrite Hbs.
    replace (is_quote_or_dot c && after_newline prev) with false.
    2:{ destruct (after_newline prev) eqn:E.
        - rewrite (Hprev eq_refl). reflexivity.
        - now rewrite andb_false_r. }
    destruct (IH (Some c) (esc_put c b) Hrest) as [b' [Hrun [Hdst Hlog]]].
    + cbn [after_newline]. intros Hc. rewrite Hc in Hnl. cbn in Hnl.
      destruct s; [exact I|exact Hnl].
    + cbn [esc_put esc_dst]. lia.
    + exists b'. split; [exact Hrun|]. split.
      * rewrite Hdst, strlen_cons. cbn [esc_put esc_dst]. lia.
      * rewrite Hlog. cbn [esc_put esc_log rev]. rewrite map_app.
        cbn [map snd]. rewrite <- app_assoc. reflexivity.
Qed.

(** C9 (amended): [esc] returns a string unchanged when it holds no
    backslash and no apostrophe or period right after a newline, and is
    shorter than the buffer ([BUFLEN], 5000 bytes). *)
Theorem esc_plain_identity (s : cstring) :
  strlen s < BUFLEN ->
  needs_escape s = false ->
  esc s = Ret s.
Proof.
  intros Hlen Hne.
  destruct (esc_loop_plain s None esc_init Hne) as [b' [Hrun [_ Hlog]]].
  - cbn. intros H. discriminate H.
  - cbn [esc_init esc_dst]. lia.
  - unfold esc, esc_run. rewrite Hrun. cbn [snd]. rewrite Hlog.
    reflexivity.
Qed.

Lemma esc_plain_identity_witness :
  esc (cstr "int x = a.b;\nreturn 'c';\n")
  = Ret (cstr "int x = a.b;\nreturn 'c';\n").
Proof.
  apply esc_plain_identity; [vm_compute; reflexivity|vm_compute; reflexivity].
Defined.

(** ** The matcher computes the longest match *)

Section Matcher.

Lemma matches_void (w : cstring) : ~ matches Void w.
Proof. intros H. inversion H. Qed.

Lemma matches_eps (w : cstring) : matches Eps w <-> w = [].
Proof.
  split; intros H; [inversion H; reflexivity|subst w; constructor].
Qed.

Lemma nullable_spec (r : regex) : nullable r = true <-> matches r [].
Proof.
  induction r as [| |p|r1 IH1 r2 IH2|r1 IH1 r2 IH2|r IH]; cbn [nullable].
  - split; [discriminate|]. intros H. inversion H.
  - split; [constructor|reflexivity].
  - split; [discriminate|]. intros H. inversion H.
  - rewrite andb_true_iff, IH1, IH2. split.
    + intros [H1 H2]. exact (m_cat r1 r2 [] [] H1 H2).
    + intros H. inversion H as [| |? ? u v H1 H2 E1 E2| | | |]. subst.
      apply app_eq_nil in E2. destruct E2 as [-> ->]. split; assumption.
  - rewrite orb_true_iff, IH1, IH2. split.
    + intros [H|H]; [apply m_alt_l|apply m_alt_r]; exact H.
    + intros H. inversion H; subst; [left|right]; assumption.
  - split; [constructor|reflexivity].
Qed.

Lemma cat_spec (r1 r2 : regex) (w : cstring) :
  matches (cat r1 r2) w <-> matches (Cat r1 r2) w.
Proof.
  assert (Hl : forall r, matches r w <-> matches (Cat Eps r) w).
  { intros r. split; intros H.
    - exact (m_cat Eps r [] w m_eps H).
    - inversion H as [| |? ? u v H1 H2 E1 E2| | | |]. subst.
      inversion H1. subst. exact H2. }
  assert (Hr : forall r, matches r w <-> matches (Cat r Eps) w).
  { intros r. split; intros H.
    - rewrite <- (app_nil_r w). exact (m_cat r Eps w [] H m_eps).
    - inversion H as [| |? ? u v H1 H2 E1 E2| | | |]. subst.
      inversion H2. subst. rewrite app_nil_r. exact H1. }
  assert (Hvl : forall r, matches Void w <-> matches (Cat Void r) w).
  { intros r. split; intros H; [destruct (matches_void _ H)|].
    inversion H as [| |? ? u v H1 H2 E1 E2| | | |]. subst.
    destruct (matches_void _ H1). }
  assert (Hvr : forall r, matches Void w <-> matches (Cat r Void) w).
  { intros r. split; intros H; [destruct (matches_void _ H)|].
    inversion H as [| |? ? u v H1 H2 E1 E2| | | |]. subst.
    destruct (matches_void _ H2). }
  destruct r1, r2; cbn [cat];
    first [ reflexivity | apply Hvl | apply Hvr | apply Hl | apply Hr ].
Qed.

Lemma alt_spec (r1 r2 : regex) (w : cstring) :
  matches (alt r1 r2) w <-> matches (Alt r1 r2) w.
Proof.
  assert (Hl : forall r, matches r w <-> matches (Alt Void r) w).
  { intros r. split; intros H; [apply m_alt_r; exact H|].
    inversion H; subst; [destruct (matches_void _ H3)|assumption]. }
  assert (Hr : forall r, matches r w <-> matches (Alt r Void) w).
  { intros r. split; intros H; [apply m_alt_l; exact H|].
    inversion H; subst; [assumption|destruct (matches_void _ H3)]. }
  destruct r1, r2; cbn [alt];
    first [ reflexivity | apply Hl | apply Hr ].
Qed.

(** A non-empty match of [r*] starts with a non-empty match of [r]. *)
Lemma star_cons_inv (r : regex) (c : ascii) (w : cstring) :
  matches (Star r) (c :: w) ->
  exists u v, w = u ++ v /\ matches r (c :: u) /\ matches (Star r) v.
Proof.
  intros H. remember (Star r) as r0 eqn:Er. remember (c :: w) as w0 eqn:Ew.
  revert w Ew.
  induction H as [| | | | | |r' u v H1 _ H2 IH2]; intros x Ex;
    try discriminate Er; try discriminate Ex.
  injection Er as ->. destruct u as [|a u].
  - cbn in Ex. exact (IH2 eq_refl x Ex).
  - cbn in Ex. injection Ex as -> <-. exists u, v.
    split; [reflexivity|]. split; assumption.
Qed.

Lemma deriv_spec (c : ascii) (r : regex) :
  forall w : cstring, matches (deriv c r) w <-> matches r (c :: w).
Proof.
  induction r as [| |p|r1 IH1 r2 IH2|r1 IH1 r2 IH2|r IH]; intros w;
    cbn [deriv].
  - split; intros H; inversion H.
  - split; intros H; inversion H.
  - destruct (p c) eqn:E; split; intros H.
    + inversion H. subst. constructor. exact E.
    + inversion H. subst. constructor.
    + inversion H.
    + inversion H. subst. congruence.
  - rewrite alt_spec. split; intros H.
    + inversion H as [| | |? ? ? H1|? ? ? H1| |]; subst.
      * apply cat_spec in H1.
        inversion H1 as [| |? ? u v Hu Hv E1 E2| | | |]. subst.
        apply IH1 in Hu. exact (m_cat r1 r2 (c :: u) v Hu Hv).
      * destruct (nullable r1) eqn:E; [|inversion H1].
        apply IH2 in H1. apply nullable_spec in E.
        exact (m_cat r1 r2 [] (c :: w) E H1).
    + inversion H as [| |? ? u v Hu Hv E1 E2| | | |]. subst.
      destruct u as [|a u].
      * cbn in E2. subst v. apply m_alt_r.
        apply nullable_spec in Hu. rewrite Hu. apply IH2. exact Hv.
      * cbn in E2. injection E2 as -> <-. apply m_alt_l, cat_spec.
        apply m_cat; [apply IH1; exact Hu|exact Hv].
  - rewrite alt_spec. split; intros H.
    + inversion H; subst;
        [apply m_alt_l, IH1|apply m_alt_r, IH2]; assumption.
    + inversion H; subst; [apply m_alt_l, IH1|apply m_alt_r, IH2];
        assumption.
  - rewrite cat_spec. split; intros H.
    + inversion H as [| |? ? u v Hu Hv E1 E2| | | |]. subst.
      apply IH in Hu. exact (m_star_cons r (c :: u) v Hu Hv).
    + apply star_cons_inv in H. destruct H as [u [v [-> [Hu Hv]]]].
      apply m_cat; [apply IH; exact Hu|exact Hv].
Qed.

Lemma is_void_spec (r : regex) (w : cstring) :
  is_void r = true -> ~ matches r w.
Proof.
  destruct r; cbn [is_void]; intros H; try discriminate H.
  apply matches_void.
Qed.

(** [longest] either finds the longest prefix that matches and returns
    its end, or finds that no prefix matches and returns [best]. *)
Lemma longest_spec (s : cstring) :
  forall (r : regex) (pos : nat) (best : option nat),
    (exists k : nat,
       (k <= List.length s)%nat
       /\ matches r (firstn k s)
       /\ (forall k', (k < k' <= List.length s)%nat ->
                      ~ matches r (firstn k' s))
       /\ longest r s pos best = Some (pos + k)%nat)
    \/ ((forall k, (k <= List.length s)%nat -> ~ matches r (firstn k s))
        /\ longest r s pos best = best).
Proof.
  induction s as [|c s IH]; intros r pos best; cbn [longest].
  - destruct (nullable r) eqn:E.
    + left. exists O. cbn. rewrite Nat.add_0_r.
      repeat split; [lia|apply nullable_spec; exact E|intros k' Hk; lia].
    + right. split; [|reflexivity]. intros k Hk H. cbn in Hk.
      assert (k = O) as -> by lia. cbn in H.
      apply nullable_spec in H. congruence.
  - assert (Hstep : forall k, matches r (firstn (S k) (c :: s))
                              <-> matches (deriv c r) (firstn k s)).
    { intros k. cbn [firstn]. symmetry. apply deriv_spec. }
    assert (Hzero : forall b,
               (forall k, (k <= List.length s)%nat ->
                          ~ matches (deriv c r) (firstn k s)) ->
               (exists k : nat,
                  (k <= List.length (c :: s))%nat
                  /\ matches r (firstn k (c :: s))
                  /\ (forall k', (k < k' <= List.length (c :: s))%nat ->
                                 ~ matches r (firstn k' (c :: s)))
                  /\ (if nullable r then Some pos else b)
                     = Some (pos + k)%nat)
               \/ ((forall k, (k <= List.length (c :: s))%nat ->
                              ~ matches r (firstn k (c :: s)))
                   /\ (if nullable r then Some pos else b) = b)).
    { intros b Hno. destruct (nullable r) eqn:E.
      - left. exists O. rewrite Nat.add_0_r. split; [cbn; lia|].
        split; [apply nullable_spec; exact E|]. split; [|reflexivity].
        intros [|k'] Hk; [lia|]. rewrite Hstep. apply Hno.
        cbn in Hk. lia.
      - right. split; [|reflexivity]. intros [|k] Hk.
        + cbn. intros H. apply nullable_spec in H. congruence.
        + rewrite Hstep. apply Hno. cbn in Hk. lia. }
    destruct (is_void (deriv c r)) eqn:Ev.
    + apply Hzero. intros k _. apply is_void_spec. exact Ev.
    + destruct (IH (deriv c r) (S pos)
                  (if nullable r then Some pos else best))
        as [[k [Hk [Hm [Hmax Hres]]]]|[Hno Hres]].
      * left. exists (S k). split; [cbn; lia|]. split; [apply Hstep, Hm|].
        split.
        -- intros [|k'] Hk'; [lia|]. rewrite Hstep. apply Hmax.
           cbn in Hk'. lia.
        -- rewrite Hres. f_equal. lia.
      * rewrite Hres. apply Hzero. exact Hno.
Qed.

(** [match_len r s] is the length of the longest prefix of [s] that
    matches [r], and [None] when no prefix does. *)
Theorem match_len_longest (r : regex) (s : cstring) :
  (forall n : nat,
     match_len r s = Some n <->
     ((n <= List.length s)%nat
      /\ matches r (firstn n s)
      /\ forall k, (n < k <= List.length s)%nat ->
                   ~ matches r (firstn k s)))
  /\ (match_len r s = None <->
      forall k, (k <= List.length s)%nat -> ~ matches r (firstn k s)).
Proof.
  unfold match_len.
  destruct (longest_spec s r O None)
    as [[k [Hk [Hm [Hmax Hres]]]]|[Hno Hres]]; rewrite Hres; cbn [Nat.add].
  - split.
    + intros n. split.
      * intros H. injection H as <-. repeat split; assumption.
      * intros [Hn [Hmn Hmaxn]]. f_equal.
        destruct (Nat.lt_trichotomy k n) as [Hlt|[Heq|Hgt]];
          [|exact Heq|].
        -- exfalso. apply (Hmax n); [lia|exact Hmn].
        -- exfalso. apply (Hmaxn k); [lia|exact Hm].
    + split; [discriminate|]. intros H. exfalso. exact (H k Hk Hm).
  - split.
    + intros n. split; [discriminate|].
      intros [Hn [Hmn _]]. exfalso. exact (Hno n Hn Hmn).
    + split; [intros _; exact Hno|reflexivity].
Qed.

End Matcher.

(** ** Progress of the scanner *)

(** *** The matcher *)

Lemma longest_bound (s : cstring) :
  forall (r : regex) (pos : nat) (best : option nat) (n : nat),
    longest r s pos best = Some n ->
    best = Some n
    \/ ((pos <= n <= pos + List.length s)%nat
        /\ (n = pos -> nullable r = true)).
Proof.
  induction s as [|c s IH]; intros r pos best n H; cbn [longest] in H.
  - destruct (nullable r) eqn:E; [|left; exact H].
    injection H as <-. right. cbn. split; [lia|reflexivity].
  - destruct (is_void (deriv c r)).
    + destruct (nullable r) eqn:E; [|left; exact H].
      injection H as <-. right. cbn. split; [lia|reflexivity].
    + apply IH in H. destruct H as [H|[H1 H2]].
      * destruct (nullable r) eqn:E; [|left; exact H].
        injection H as <-. right. cbn. split; [lia|reflexivity].
      * right. cbn [List.length]. split; [lia|]. intros ->. lia.
Qed.

(** A match is a prefix of the input, and is not empty unless the pattern
    matches the empty string. *)
Lemma match_len_bound (r : regex) (s : cstring) (n : nat) :
  match_len r s = Some n ->
  (n <= List.length s)%nat /\ (n = O -> nullable r = true).
Proof.
  unfold match_len. intros H. apply longest_bound in H.
  destruct H as [H|[H1 H2]]; [discriminate H|]. split; [lia|exact H2].
Qed.

Lemma best_match_spec (rs : list rule) (m : mode) (bol : bool) (inp : cstring) :
  forall (best : option (rule * nat)) (r : rule) (n : nat),
    best_match rs m bol inp best = Some (r, n) ->
    best = Some (r, n)
    \/ (In r rs /\ rule_active m bol r = true
        /\ match_len (r_pat r) inp = Some n).
Proof.
  induction rs as [|r0 rs IH]; intros best r n H; cbn [best_match] in H.
  - left. exact H.
  - apply IH in H. destruct H as [H|[H1 [H2 H3]]].
    + unfold longer, try_rule in H.
      destruct (rule_active m bol r0) eqn:Ea; [|left; exact H].
      destruct (match_len (r_pat r0) inp) as [n0|] eqn:Em; [|left; exact H].
      destruct best as [[rb nb]|].
      * destruct (Nat.ltb nb n0); [|left; exact H].
        injection H as <- <-. right. split; [left; reflexivity|].
        split; assumption.
      * injection H as <- <-. right. split; [left; reflexivity|].
        split; assumption.
    + right. split; [right; exact H1|]. split; assumption.
Qed.

(** *** The actions *)

Ltac inv_ret :=
  repeat match goal with
         | H : Ret _ = Ret _ |- _ => injection H as H; subst
         | H : Die _ = Ret _ |- _ => discriminate H
         | H : Crash = Ret _ |- _ => discriminate H
         | H : bind ?m _ = Ret _ |- _ => destruct m eqn:?; cbn [bind] in H
         | H : (if ?c then _ else _) = Ret _ |- _ => destruct c eqn:?
         | H : match ?x with _ => _ end = Ret _ |- _ => destruct x eqn:?
         end.

Ltac scan_fields :=
  cbn [yy_input yytext yy_start set_start set_scan set_g_buf set_stdout
       set_files] in *.

Create HintDb scan.

Lemma keeps_seq (a b : action) :
  keeps_scan a -> keeps_scan b -> keeps_scan (a >> b).
Proof.
  intros Ha Hb st st' H. unfold seq_act in H.
  destruct (a st) as [st1| |] eqn:E; cbn [bind] in H; try discriminate H.
  destruct (Ha _ _ E) as [H1 H2]. destruct (Hb _ _ H) as [H3 H4].
  split; congruence.
Qed.

Lemma keeps_input_seq (a b : action) :
  keeps_input a -> keeps_input b -> keeps_input (a >> b).
Proof.
  intros Ha Hb st st' H. unfold seq_act in H.
  destruct (a st) as [st1| |] eqn:E; cbn [bind] in H; try discriminate H.
  rewrite (Hb _ _ H). exact (Ha _ _ E).
Qed.

Lemma keeps_scan_input (a : action) : keeps_scan a -> keeps_input a.
Proof. intros Ha st st' H. exact (proj1 (Ha _ _ H)). Qed.

Lemma keeps_BEGIN (m : mode) : keeps_scan (BEGIN m).
Proof. intros st st' H. unfold BEGIN in H. inv_ret. split; reflexivity. Qed.

Lemma keeps_skip : keeps_scan skip.
Proof. intros st st' H. unfold skip in H. inv_ret. split; reflexivity. Qed.

Lemma keeps_printf (s : cstring) : keeps_scan (printf s).
Proof. intros st st' H. unfold printf in H. inv_ret. split; reflexivity. Qed.

Lemma keeps_fprintf_def (s : cstring) : keeps_scan (fprintf_def s).
Proof.
  intros st st' H. unfold fprintf_def in H. inv_ret. split; reflexivity.
Qed.

Lemma keeps_bstart : keeps_scan bstart.
Proof. intros st st' H. unfold bstart in H. inv_ret. split; reflexivity. Qed.

Lemma keeps_bappend : keeps_scan bappend.
Proof. intros st st' H. unfold bappend in H. inv_ret. split; reflexivity. Qed.

Lemma keeps_bclear : keeps_scan bclear.
Proof. intros st st' H. unfold bclear in H. inv_ret. split; reflexivity. Qed.

Lemma keeps_bstrlib_head : keeps_scan bstrlib_head.
Proof.
  intros st st' H. unfold bstrlib_head, printf in H. cbn [bind] in H.
  inv_ret. split; reflexivity.
Qed.

Lemma keeps_par (s : cstring) : keeps_scan (par s).
Proof.
  intros st st' H. unfold par, printf in H. inv_ret. split; reflexivity.
Qed.

Lemma keeps_ol : keeps_scan ol.
Proof.
  intros st st' H. unfold ol, par, printf, bclear in H. inv_ret;
    split; reflexivity.
Qed.

Lemma keeps_ul : keeps_scan ul.
Proof.
  intros st st' H. unfold ul, printf, bclear in H. inv_ret;
    split; reflexivity.
Qed.

Lemma keeps_bq : keeps_scan bq.
Proof.
  intros st st' H. unfold bq, printf, bclear in H. inv_ret;
    split; reflexivity.
Qed.

Lemma keeps_nf (s : cstring) : keeps_scan (nf s).
Proof.
  intros st st' H. unfold nf, printf in H. inv_ret. split; reflexivity.
Qed.

Lemma keeps_macrodesc (s : cstring) : keeps_scan (macrodesc s).
Proof.
  intros st st' H. unfold macrodesc, printf in H. inv_ret.
  split; reflexivity.
Qed.

Lemma keeps_func_head : keeps_scan func_head.
Proof.
  intros st st' H. unfold func_head, open_deffile in H.
  destruct (func_name (yytext st)); cbn [bind] in H; try discriminate H.
  destruct (func_synopsis (yytext st)); cbn [bind] in H; try discriminate H.
  repeat match type of H with
         | bind ?m _ = Ret _ =>
             let E := fresh "E" in
             destruct m eqn:E; cbn [bind] in H; try discriminate H;
             apply keeps_fprintf_def in E
         end.
  apply keeps_fprintf_def in H. scan_fields.
  destruct H, E, E0, E1. split; congruence.
Qed.

Lemma keeps_func_par : keeps_scan func_par.
Proof.
  intros st st' H. unfold func_par in H.
  destruct (esc (yytext st)); cbn [bind] in H; try discriminate H.
  destruct (trim_leading_spaces a); cbn [bind] in H; try discriminate H.
  exact (keeps_fprintf_def _ _ _ H).
Qed.

Lemma keeps_func_ex : keeps_scan func_ex.
Proof.
  intros st st' H. unfold func_ex in H.
  destruct (esc (yytext st)); cbn [bind] in H; try discriminate H.
  destruct (indent a _); cbn [bind] in H; try discriminate H.
  exact (keeps_fprintf_def _ _ _ H).
Qed.

Lemma keeps_func_exit : keeps_scan func_exit.
Proof.
  intros st st' H. unfold func_exit in H. inv_ret. split; reflexivity.
Qed.

(** [heading] may rewrite [yytext]; the unread input is left alone. *)
Lemma keeps_input_heading (level : Z) : keeps_input (heading level).
Proof.
  intros st st' H. unfold heading, printf in H.
  destruct (level =? 1); cbn [bind] in H.
  - inv_ret. reflexivity.
  - destruct (1 <? level); cbn [bind] in H; inv_ret. reflexivity.
Qed.

Lemma keeps_par_text : keeps_scan (fun st => par (yytext st) st).
Proof. intros st st' H. exact (keeps_par _ _ _ H). Qed.

Lemma keeps_nf_text : keeps_scan (fun st => nf (yytext st) st).
Proof. intros st st' H. exact (keeps_nf _ _ _ H). Qed.

Lemma keeps_nf_buf : keeps_scan (fun st => nf (g_buf st) st).
Proof. intros st st' H. exact (keeps_nf _ _ _ H). Qed.

Lemma keeps_macrodesc_text : keeps_scan (fun st => macrodesc (yytext st) st).
Proof. intros st st' H. exact (keeps_macrodesc _ _ _ H). Qed.

#[local] Hint Resolve keeps_seq keeps_BEGIN keeps_skip keeps_bstart
  keeps_bappend keeps_bclear keeps_bstrlib_head keeps_ol keeps_ul keeps_bq
  keeps_func_head keeps_func_par keeps_func_ex keeps_func_exit
  keeps_par_text keeps_nf_text keeps_nf_buf keeps_macrodesc_text : scan.

Lemma seq_inv (a b : action) (st st' : state) :
  (a >> b) st = Ret st' -> exists st1, a st = Ret st1 /\ b st1 = Ret st'.
Proof.
  unfold seq_act. intros H.
  destruct (a st) as [st1| |]; cbn [bind] in H; try discriminate H.
  exists st1. split; [reflexivity|exact H].
Qed.

Lemma ends_in_BEGIN (a : action) (m : mode) : ends_in m (a >> BEGIN m).
Proof.
  intros st st' H. apply seq_inv in H. destruct H as [st1 [_ H]].
  unfold BEGIN in H. injection H as <-. reflexivity.
Qed.

(** [a; yyless(0); BEGIN(0)] gives the lexeme back when [a] leaves it
    alone. *)
Lemma pushes_back_yyless (a : action) :
  keeps_scan a -> pushes_back (a >> yyless0 >> BEGIN INITIAL).
Proof.
  intros Ha st st' H.
  apply seq_inv in H. destruct H as [st1 [H1 H]].
  apply seq_inv in H. destruct H as [st2 [H2 H]].
  destruct (Ha _ _ H1) as [Hi Ht].
  unfold yyless0 in H2. injection H2 as <-.
  unfold BEGIN in H. injection H as <-. scan_fields.
  split; [congruence|reflexivity].
Qed.

Lemma pushes_back_yyless0 : pushes_back (yyless0 >> BEGIN INITIAL).
Proof.
  intros st st' H.
  apply seq_inv in H. destruct H as [st1 [H1 H]].
  unfold yyless0 in H1. injection H1 as <-.
  unfold BEGIN in H. injection H as <-. split; reflexivity.
Qed.

Lemma pushes_back_assoc (a b c d : action) :
  pushes_back ((a >> b) >> c >> d) -> pushes_back (a >> b >> c >> d).
Proof.
  intros Hp st st' H. apply (Hp st st'). unfold seq_act in *.
  destruct (a st); cbn [bind] in *; exact H.
Qed.

(** Every rule of the table matches at least one character, and either
    leaves the rest of the input alone or pushes its lexeme back on its way
    out of an exclusive start condition. *)
Lemma rules_ok : Forall rule_ok rules.
Proof.
  unfold rules.
  repeat (apply Forall_cons;
          [split;
           [reflexivity
           |first
              [ left; cbn [r_act];
                solve [ auto 8 using keeps_scan_input with scan
                      | auto using keeps_input_seq, keeps_input_heading,
                          keeps_scan_input with scan ]
              | right; cbn [r_act]; split;
                [ first [ exact pushes_back_yyless0
                        | apply pushes_back_yyless; auto with scan
                        | apply pushes_back_assoc, pushes_back_yyless;
                          auto with scan ]
                | intros m bol Hact ->; discriminate Hact ] ] ]
          |]).
  apply Forall_nil.
Qed.

Lemma find_rule_unfold (st : state) :
  find_rule st
  = best_match rules (yy_start st) (yy_at_bol st) (yy_input st) None.
Proof. reflexivity. Qed.

Lemma rule_setup_input (n : nat) (st : state) :
  yy_input (rule_setup n st) = skipn n (yy_input st)
  /\ yytext (rule_setup n st) = firstn n (yy_input st)
  /\ yy_start (rule_setup n st) = yy_start st.
Proof. unfold rule_setup. scan_fields. repeat split. Qed.

Lemma eof_rule_spec (m : mode) (act : action) :
  eof_rule m = Some act ->
  m <> INITIAL /\ keeps_scan act /\ ends_in INITIAL act.
Proof.
  destruct m; cbn [eof_rule]; intros H; try discriminate H;
    injection H as <-;
    (split; [discriminate|split; [auto with scan|apply ends_in_BEGIN]]).
Qed.

(** *** One turn *)

Lemma yy_step_reads (st : state) :
  match yy_step st with
  | Finished st' => st' = st /\ yy_input st = []
  | Continue st' => turn_reads st st'
  | Failed r => forall st', r <> Ret st'
  end.
Proof.
  unfold yy_step, turn_reads. destruct (yy_input st) as [|c inp] eqn:Hin.
  - destruct (eof_rule (yy_start st)) as [act|] eqn:He;
      [|split; reflexivity].
    apply eof_rule_spec in He. destruct He as [Hm [Hk He]].
    destruct (act _) as [st'| |] eqn:Hact; cbn [continue];
      try (intros st' H; discriminate H).
    split; [|split; [exact Hm|exact (He _ _ Hact)]].
    apply Hk in Hact. destruct Hact as [Hact _]. exact Hact.
  - destruct (find_rule st) as [[r n]|] eqn:Hf.
    + rewrite find_rule_unfold in Hf. apply best_match_spec in Hf.
      destruct Hf as [Hf|[Hr [Ha Hm]]]; [discriminate Hf|].
      pose proof (proj1 (Forall_forall _ _) rules_ok r Hr) as [Hnull Hact].
      pose proof (match_len_bound _ _ _ Hm) as [Hle Hz].
      destruct (rule_setup_input n st) as [Hi [Ht Hs]].
      destruct (r_act r (rule_setup n st)) as [st'| |] eqn:Hrun;
        cbn [continue]; try (intros st' H; discriminate H).
      rewrite <- Hin. split; [|split; [exact Hm|]].
      * split; [|exact Hle]. destruct n; [|lia].
        rewrite (Hz eq_refl) in Hnull. discriminate Hnull.
      * destruct Hact as [Hk|[Hp Hx]].
        -- left. rewrite (Hk _ _ Hrun). exact Hi.
        -- right. destruct (Hp _ _ Hrun) as [Hp1 Hp2].
           split; [|split; [exact (Hx _ _ Ha)|exact Hp2]].
           rewrite Hp1, Hi, Ht. apply firstn_skipn.
    + unfold ECHO, printf, rule_setup. cbn [continue]. scan_fields.
      rewrite Hin. split; reflexivity.
Qed.

Lemma turn_reads_advances (st st' : state) :
  turn_reads st st' -> advances st st'.
Proof.
  unfold turn_reads, advances. destruct (yy_input st) as [|c inp].
  - intros [H1 [H2 H3]]. exists O. cbn.
    split; [lia|]. split; [exact H1|]. intros _. split; assumption.
  - destruct (find_rule st) as [[r n]|].
    + intros [Hn [_ [H|[H1 [H2 H3]]]]].
      * exists n. split; [lia|]. split; [exact H|]. intros ->. lia.
      * exists O. split; [lia|]. split; [exact H1|].
        intros _. split; assumption.
    + intros [H _]. exists 1%nat. split; [cbn; lia|].
      split; [exact H|]. intros H0. discriminate H0.
Qed.

Lemma advances_turns (st st' : state) :
  advances st st' -> (turns st' < turns st)%nat.
Proof.
  intros [n [Hle [Hi Hz]]]. unfold turns. rewrite Hi, length_skipn.
  destruct n as [|n].
  - destruct (Hz eq_refl) as [H1 H2]. rewrite H2. cbn [mode_eqb].
    destruct (yy_start st); cbn [mode_eqb]; try lia.
    exfalso. apply H1. reflexivity.
  - destruct (mode_eqb (yy_start st') INITIAL),
             (mode_eqb (yy_start st) INITIAL); lia.
Qed.

(** *** The whole run *)

Lemma yylex_loop_total (fuel : nat) :
  forall st : state,
    (turns st <= fuel)%nat ->
    exists r : result state,
      yylex_loop fuel st = Some r
      /\ forall st', r = Ret st' -> yy_input st' = [].
Proof.
  induction fuel as [|fuel IH]; intros st Hfuel.
  - unfold turns in Hfuel. lia.
  - cbn [yylex_loop]. pose proof (yy_step_reads st) as Hstep.
    destruct (yy_step st) as [st1|st1|r].
    + destruct Hstep as [-> Hin]. exists (Ret st). split; [reflexivity|].
      intros st' H. injection H as <-. exact Hin.
    + apply turn_reads_advances, advances_turns in Hstep. apply IH. lia.
    + exists r. split; [reflexivity|]. intros st' H.
      exfalso. exact (Hstep st' H).
Qed.


(** ** The extern qualifier *)

Lemma is_prefix_app (p t : cstring) : is_prefix p (p ++ t) = true.
Proof.
  induction p as [|a p IH]; [reflexivity|].
  cbn [is_prefix app]. unfold is_char. rewrite Ascii.eqb_refl. exact IH.
Qed.

Lemma is_prefix_true (p s : cstring) :
  is_prefix p s = true -> exists t, s = p ++ t.
Proof.
  revert s. induction p as [|a p IH]; intros s H.
  - exists s. reflexivity.
  - destruct s as [|b s]; [discriminate H|]. cbn [is_prefix] in H.
    apply andb_true_iff in H. destruct H as [Hab H].
    apply is_char_eq in Hab. subst b.
    destruct (IH s H) as [t ->]. exists t. reflexivity.
Qed.

Lemma strstr_unfold (s needle : cstring) :
  strstr s needle
  = if is_prefix needle s then Some O
    else match s with
         | [] => None
         | _ :: s' => option_map S (strstr s' needle)
         end.
Proof. destruct s; reflexivity. Qed.

(** [strstr] returns the offset of the first occurrence. *)
Lemma strstr_first (needle post : cstring) :
  forall pre : cstring,
    (forall a b, pre ++ needle ++ post = a ++ needle ++ b ->
                 (List.length pre <= List.length a)%nat) ->
    strstr (pre ++ needle ++ post) needle = Some (List.length pre).
Proof.
  induction pre as [|c pre IH]; intros Hfirst.
  - cbn [app]. rewrite strstr_unfold, is_prefix_app. reflexivity.
  - cbn [app strstr].
    destruct (is_prefix needle (c :: pre ++ needle ++ post)) eqn:E.
    + apply is_prefix_true in E. destruct E as [t E].
      specialize (Hfirst [] t E). cbn in Hfirst. lia.
    + rewrite IH; [reflexivity|]. intros a b E'.
      specialize (Hfirst (c :: a) b). cbn [app List.length] in Hfirst.
      rewrite E' in Hfirst. specialize (Hfirst eq_refl). lia.
Qed.

(** [index] returns the offset of the first newline. *)
Lemma index_first (c : ascii) (rest : cstring) :
  forall line : cstring,
    ~ In c line -> index (line ++ c :: rest) c = Some (List.length line).
Proof.
  induction line as [|x line IH]; intros Hnot.
  - cbn. unfold is_char. rewrite Ascii.eqb_refl. reflexivity.
  - cbn [app index]. destruct (is_char x c) eqn:E.
    + apply is_char_eq in E. exfalso. apply Hnot. left. exact E.
    + rewrite IH; [reflexivity|]. intros H. apply Hnot. right. exact H.
Qed.

Lemma skipn_app_exact (a b : cstring) : skipn (List.length a) (a ++ b) = b.
Proof. induction a as [|x a IH]; [reflexivity|exact IH]. Qed.

Lemma firstn_app_exact (a b : cstring) : firstn (List.length a) (a ++ b) = a.
Proof.
  induction a as [|x a IH]; [reflexivity|]. cbn. rewrite IH. reflexivity.
Qed.

(** The block of lines 346-355 on a text whose first [extern ] follows
    [pre], is followed by [line] up to the first newline, and then by
    [rest], the whole of the text after that newline. *)
Lemma strip_extern_spec (pre line rest : cstring) :
  (forall a b, pre ++ ext ++ line ++ nl :: rest = a ++ ext ++ b ->
               (List.length pre <= List.length a)%nat) ->
  ~ In nl line ->
  strip_extern (pre ++ ext ++ line ++ nl :: rest)
  = Ret (line ++ nl :: (if strlen ext <? strlen rest
                        then skipn (List.length ext) rest else rest)).
Proof.
  intros Hfirst Hline. unfold strip_extern.
  rewrite (strstr_first ext (line ++ nl :: rest) pre Hfirst).
  rewrite <- length_app, app_assoc, skipn_app_exact.
  rewrite (index_first nl rest line Hline).
  replace (List.length line + 1)%nat with (List.length (line ++ [nl]))
    by (rewrite length_app; reflexivity).
  replace (line ++ nl :: rest) with ((line ++ [nl]) ++ rest)
    by (rewrite <- app_assoc; reflexivity).
  rewrite skipn_app_exact, firstn_app_exact.
  destruct (strlen ext <? strlen rest); rewrite <- app_assoc; reflexivity.
Qed.

Lemma stream_write_last (ss : list stream) (f : stream) (s : cstring) :
  s_open f = true ->
  stream_write (ss ++ [f]) (List.length ss) s
  = Some (ss ++ [{| s_path := s_path f; s_data := s_data f ++ s;
                    s_open := true |}]).
Proof.
  intros Hopen. induction ss as [|g ss IH]; cbn.
  - rewrite Hopen. reflexivity.
  - cbn in IH. rewrite IH. reflexivity.
Qed.

(** [func_head] opens a new stream and writes the page of the symbol to
    it, once the name and the synopsis are found. *)
Lemma func_head_page (st : state) (name syn : cstring) :
  func_name (yytext st) = Ret name ->
  func_synopsis (yytext st) = Ret syn ->
  exists st',
    func_head st = Ret st'
    /\ g_def_file st' = Some (List.length (streams st))
    /\ streams st' = streams st ++ [def_page name syn].
Proof.
  intros Hname Hsyn. unfold func_head. rewrite Hname. cbn [bind].
  rewrite Hsyn. cbn [bind]. unfold open_deffile, fprintf_def.
  cbn [g_def_file streams man3 set_files].
  rewrite stream_write_last by reflexivity. cbn [bind].
  cbn [g_def_file streams man3 set_files].
  rewrite stream_write_last by reflexivity. cbn [bind].
  cbn [g_def_file streams man3 set_files].
  rewrite stream_write_last by reflexivity. cbn [bind].
  cbn [g_def_file streams man3 set_files].
  rewrite stream_write_last by reflexivity.
  eexists. split; [reflexivity|]. cbn [g_def_file streams set_files].
  split; [reflexivity|]. unfold def_page. cbn [s_path s_data app].
  rewrite <- !app_assoc. reflexivity.
Qed.

(** C10 (amended): when the prototype, de-indented and escaped, holds
    [extern ], the synopsis that [func_head] writes starts right after the
    first occurrence and everything before it is dropped; the realignment
    deletes the first seven characters of the text that follows the first
    newline after it, whatever they are and whether or not they belong to
    one line, and does so exactly when that text, up to the end of the
    block, is longer than seven characters. *)
Theorem extern_block_realigns (st : state)
    (name s1 s pre line rest : cstring) :
  func_name (yytext st) = Ret name ->
  indent (yytext st)
    (to_int (neg_size_t (Z.of_nat (strspn (yytext st) [space]))))
  = Ret s1 ->
  esc s1 = Ret s ->
  s = pre ++ ext ++ line ++ nl :: rest ->
  (forall a b, s = a ++ ext ++ b -> (List.length pre <= List.length a)%nat) ->
  ~ In nl line ->
  let syn := line ++ nl :: (if 7 <? strlen rest then skipn 7 rest else rest) in
  func_synopsis (yytext st) = Ret syn
  /\ exists st',
       func_head st = Ret st'
       /\ streams st' = streams st ++ [def_page name syn].
Proof.
  intros Hname Hindent Hesc -> Hfirst Hline syn.
  assert (Hsyn : func_synopsis (yytext st) = Ret syn).
  { unfold func_synopsis. rewrite Hindent. cbn [bind]. rewrite Hesc.
    cbn [bind]. exact (strip_extern_spec pre line rest Hfirst Hline). }
  split; [exact Hsyn|].
  destruct (func_head_page st name syn Hname Hsyn) as [st' [H1 [_ H2]]].
  exists st'. split; assumption.
Qed.

Lemma extern_block_realigns_witness :
  let block :=
    cstr "    extern int bfoo (int a,\n                    int b);\n" in
  let st := set_scan true block [] (start_state FUNC_HEAD []) in
  let syn := cstr "int bfoo (int a,\n" ++ cstr "         int b);\n" in
  func_synopsis (yytext st) = Ret syn
  /\ exists st',
       func_head st = Ret st'
       /\ streams st' = streams st ++ [def_page (cstr "bfoo") syn].
Proof.
  cbv zeta.
  apply (extern_block_realigns
           (set_scan true
              (cstr "    extern int bfoo (int a,\n                    int b);\n")
              [] (start_state FUNC_HEAD []))
           (cstr "bfoo")
           (cstr "extern int bfoo (int a,\n                int b);\n")
           (cstr "extern int bfoo (int a,\n                int b);\n")
           [] (cstr "int bfoo (int a,") (cstr "                int b);\n")).
  - vm_compute. reflexivity.
  - vm_compute. reflexivity.
  - vm_compute. reflexivity.
  - vm_compute. reflexivity.
  - intros a b _. cbn. lia.
  - vm_compute. intuition discriminate.
Defined.

(** * Further properties *)

(** ** Lines *)

Lemma lines_concat (s : cstring) : List.concat (lines s) = s.
Proof.
  induction s as [|c s IH]; [reflexivity|]. cbn [lines].
  destruct (is_char c nl).
  - cbn. rewrite IH. reflexivity.
  - destruct (lines s) as [|l ls]; cbn in *; rewrite <- IH; reflexivity.
Qed.

Lemma is_char_space_nl (c : ascii) :
  is_char c space = true -> is_char c nl = false.
Proof. intros H. apply is_char_eq in H. subst c. reflexivity. Qed.

Lemma strspn_cons_space (c : ascii) (l : cstring) :
  strspn (c :: l) [space]
  = if is_char c space then S (strspn l [space]) else O.
Proof. cbn [strspn existsb]. rewrite orb_false_r. reflexivity. Qed.

Lemma rest_of_lines_same (other : cstring -> cstring) (s : cstring) :
  rest_of_lines other other s = List.concat (map other (lines s)).
Proof. unfold rest_of_lines. destruct (lines s); reflexivity. Qed.

(** Before a newline: the line is the newline alone. *)
Lemma rest_of_lines_nl (first other : cstring -> cstring) (s : cstring) :
  rest_of_lines first other (nl :: s)
  = first [nl] ++ rest_of_lines other other s.
Proof.
  rewrite rest_of_lines_same. unfold rest_of_lines. cbn [lines].
  replace (is_char nl nl) with true by reflexivity. reflexivity.
Qed.

(** Before another character [c], of which the treatment of the line
    keeps [pre]. *)
Lemma rest_of_lines_cons (first first' other : cstring -> cstring)
    (c : ascii) (pre s : cstring) :
  is_char c nl = false ->
  first' [] = [] ->
  (forall l, first (c :: l) = pre ++ first' l) ->
  rest_of_lines first other (c :: s) = pre ++ rest_of_lines first' other s.
Proof.
  intros Hc Hnil Hfirst. unfold rest_of_lines. cbn [lines]. rewrite Hc.
  destruct (lines s) as [|l ls].
  - rewrite Hfirst, Hnil. cbn. rewrite !app_nil_r. reflexivity.
  - rewrite Hfirst, <- app_assoc. reflexivity.
Qed.

(** The treatment of the first line matters only on its leading spaces. *)
Lemma rest_of_lines_first (first first' other : cstring -> cstring)
    (s : cstring) :
  starts_with_space s = false ->
  (forall l, strspn l [space] = O -> first l = first' l) ->
  rest_of_lines first other s = rest_of_lines first' other s.
Proof.
  intros Hs Hfirst. unfold rest_of_lines.
  destruct s as [|c s]; [reflexivity|]. cbn [starts_with_space] in Hs.
  cbn [lines]. destruct (is_char c nl).
  - rewrite Hfirst; [reflexivity|]. rewrite strspn_cons_space, Hs.
    reflexivity.
  - destruct (lines s); (rewrite Hfirst; [reflexivity|]);
      rewrite strspn_cons_space, Hs; reflexivity.
Qed.

Lemma finish_nil (msg : string) (dst : Z) (out : cstring) :
  dst < BUFLEN -> finish msg dst out [] = Ret (rev out).
Proof.
  intros H. unfold finish. cbn.
  replace (dst + 0 <? BUFLEN) with true by (symmetry; apply Z.ltb_lt; lia).
  rewrite app_nil_r. reflexivity.
Qed.

Lemma finish_die (msg : string) (dst : Z) (out : cstring) (c : ascii)
    (r : cstring) :
  BUFLEN <= dst + 1 -> finish msg dst out (c :: r) = Die msg.
Proof.
  intros H. unfold finish. rewrite strlen_cons.
  pose proof (strlen_nonneg r).
  replace (dst + (strlen r + 1) <? BUFLEN) with false
    by (symmetry; apply Z.ltb_ge; lia).
  reflexivity.
Qed.

Lemma finish_cons (msg : string) (dst : Z) (out : cstring) (c : ascii)
    (r : cstring) :
  finish msg (dst + 1) (c :: out) r = finish msg dst out (c :: r).
Proof.
  unfold finish. rewrite strlen_cons.
  replace (dst + 1 + strlen r) with (dst + (strlen r + 1)) by lia.
  cbn [rev]. rewrite <- app_assoc. reflexivity.
Qed.

(** A store followed by the test of the bound. *)
Lemma finish_store (msg : string) (dst : Z) (out : cstring) (c : ascii)
    (r : cstring) (k : result cstring) :
  (dst + 1 < BUFLEN -> k = finish msg (dst + 1) (c :: out) r) ->
  (if BUFLEN <=? dst + 1 then Die msg else k) = finish msg dst out (c :: r).
Proof.
  intros Hk. destruct (BUFLEN <=? dst + 1) eqn:E.
  - apply Z.leb_le in E. symmetry. apply finish_die. exact E.
  - apply Z.leb_gt in E. rewrite (Hk E). apply finish_cons.
Qed.

(** ** trim_leading_spaces, line by line *)

Lemma trim_line_space (c : ascii) (l : cstring) :
  is_char c space = true -> trim_line (c :: l) = trim_line l.
Proof.
  intros H. unfold trim_line. rewrite strspn_cons_space, H. reflexivity.
Qed.

Lemma trim_line_other (c : ascii) (l : cstring) :
  is_char c space = false -> trim_line (c :: l) = c :: l.
Proof.
  intros H. unfold trim_line. rewrite strspn_cons_space, H. reflexivity.
Qed.

Lemma trim_loop_lines (s : cstring) :
  forall (trimming : bool) (dst : Z) (out : cstring),
    dst < BUFLEN ->
    trim_loop s trimming dst out
    = finish "trim buffer too small" dst out
        (rest_of_lines (if trimming then trim_line else fun l => l)
           trim_line s).
Proof.
  induction s as [|c s IH]; intros trimming dst out Hdst.
  - cbn [trim_loop]. unfold rest_of_lines. cbn [lines].
    rewrite finish_nil by exact Hdst. reflexivity.
  - cbn [trim_loop]. destruct (is_char c nl) eqn:Enl.
    + apply is_char_eq in Enl. subst c.
      replace (is_char nl space) with false by reflexivity.
      rewrite andb_false_r. cbn [orb andb].
      rewrite rest_of_lines_nl.
      replace ((if trimming then trim_line else fun l => l) [nl])
        with [nl] by (destruct trimming; reflexivity).
      cbn [app]. apply finish_store. intros Hlt. apply IH. exact Hlt.
    + cbn [orb]. destruct (is_char c space) eqn:Esp.
      * rewrite andb_true_r. destruct trimming; cbn [andb].
        -- rewrite IH by exact Hdst. f_equal. symmetry.
           apply (rest_of_lines_cons trim_line trim_line trim_line c []);
             [exact Enl|reflexivity|].
           intros l. apply trim_line_space. exact Esp.
        -- rewrite (rest_of_lines_cons (fun l => l) (fun l => l)
                      trim_line c [c]) by (exact Enl || reflexivity).
           apply finish_store. intros Hlt. apply IH. exact Hlt.
      * rewrite !andb_false_r.
        rewrite (rest_of_lines_cons _ (fun l => l) trim_line c [c]);
          [|exact Enl|reflexivity|].
        -- apply finish_store. intros Hlt. apply IH. exact Hlt.
        -- intros l. destruct trimming; [|reflexivity].
           apply trim_line_other. exact Esp.
Qed.

Lemma trim_leading_spaces_lines_aux (s : cstring) :
  trim_leading_spaces s = finish "trim buffer too small" 0 [] (trim_text s).
Proof.
  unfold trim_leading_spaces. rewrite trim_loop_lines by reflexivity.
  rewrite rest_of_lines_same. reflexivity.
Qed.

(** [trim_leading_spaces] removes the leading spaces of every line and
    nothing else; it aborts exactly when what is left does not fit the
    buffer with its NUL. *)
Theorem trim_leading_spaces_lines (s : cstring) :
  trim_leading_spaces s
  = if strlen (trim_text s) <? BUFLEN then Ret (trim_text s)
    else Die "trim buffer too small".
Proof. apply trim_leading_spaces_lines_aux. Qed.

(** The equations of the text that is left, read one character at a
    time. *)
Lemma trim_rest_nl (t : bool) (s : cstring) :
  rest_of_lines (if t then trim_line else fun l => l) trim_line (nl :: s)
  = nl :: rest_of_lines trim_line trim_line s.
Proof. rewrite rest_of_lines_nl. destruct t; reflexivity. Qed.

Lemma trim_rest_space (c : ascii) (s : cstring) :
  is_char c space = true ->
  rest_of_lines trim_line trim_line (c :: s)
  = rest_of_lines trim_line trim_line s.
Proof.
  intros H.
  apply (rest_of_lines_cons trim_line trim_line trim_line c []);
    [apply is_char_space_nl; exact H|reflexivity|].
  intros l. apply trim_line_space. exact H.
Qed.

Lemma trim_rest_kept (t : bool) (c : ascii) (s : cstring) :
  is_char c nl = false ->
  (t = true -> is_char c space = false) ->
  rest_of_lines (if t then trim_line else fun l => l) trim_line (c :: s)
  = c :: rest_of_lines (fun l => l) trim_line s.
Proof.
  intros Hnl Hsp.
  apply (rest_of_lines_cons _ (fun l => l) trim_line c [c]);
    [exact Hnl|reflexivity|].
  intros l. destruct t; [|reflexivity].
  apply trim_line_other, Hsp. reflexivity.
Qed.

Lemma trim_rest_idempotent (s : cstring) :
  forall t : bool,
    let T := rest_of_lines (if t then trim_line else fun l => l) trim_line in
    T (T s) = T s.
Proof.
  induction s as [|c s IH]; intros t; cbv zeta; [reflexivity|].
  destruct (is_char c nl) eqn:Enl.
  - apply is_char_eq in Enl. subst c. rewrite !trim_rest_nl.
    f_equal. exact (IH true).
  - destruct (is_char c space) eqn:Esp.
    + destruct t.
      * rewrite trim_rest_space by exact Esp. exact (IH true).
      * rewrite !(trim_rest_kept false) by (exact Enl || discriminate).
        f_equal. exact (IH false).
    + rewrite (trim_rest_kept t c s) by (exact Enl || (intros _; exact Esp)).
      rewrite (trim_rest_kept t) by (exact Enl || (intros _; exact Esp)).
      f_equal. exact (IH false).
Qed.

(** Trimming twice is trimming once. *)
Theorem trim_leading_spaces_idempotent (s t : cstring) :
  trim_leading_spaces s = Ret t -> trim_leading_spaces t = Ret t.
Proof.
  rewrite !trim_leading_spaces_lines_aux. unfold finish. cbn [Z.add rev app].
  destruct (strlen (trim_text s) <? BUFLEN) eqn:E; [|discriminate].
  intros H. injection H as <-.
  replace (trim_text (trim_text s)) with (trim_text s).
  - rewrite E. reflexivity.
  - unfold trim_text. rewrite <- !rest_of_lines_same. symmetry.
    exact (trim_rest_idempotent s true).
Qed.

Lemma trim_leading_spaces_idempotent_witness :
  trim_leading_spaces (cstr "a\nb \n\nc d\n") = Ret (cstr "a\nb \n\nc d\n").
Proof.
  apply (trim_leading_spaces_idempotent (cstr "  a\n b \n\n   c d\n")).
  vm_compute. reflexivity.
Defined.

Lemma trim_rest_clean (s : cstring) :
  forall t : bool,
    match lines (rest_of_lines (if t then trim_line else fun l => l)
                   trim_line s) with
    | [] => True
    | l :: ls =>
        (t = true -> starts_with_space l = false)
        /\ Forall (fun l' => starts_with_space l' = false) ls
    end.
Proof.
  induction s as [|c s IH]; intros t; [exact I|].
  destruct (is_char c nl) eqn:Enl.
  - apply is_char_eq in Enl. subst c. rewrite trim_rest_nl. cbn [lines].
    replace (is_char nl nl) with true by reflexivity.
    split; [reflexivity|]. specialize (IH true). cbn [trim_line] in IH.
    destruct (lines _) as [|l ls]; [constructor|].
    destruct IH as [H1 H2]. constructor; [exact (H1 eq_refl)|exact H2].
  - assert (Hkept : forall X : cstring,
               match lines X with
               | [] => True
               | l :: ls =>
                   (false = true -> starts_with_space l = false)
                   /\ Forall (fun l' => starts_with_space l' = false) ls
               end ->
               forall b, (b = true -> is_char c space = false) ->
               match lines (c :: X) with
               | [] => True
               | l :: ls =>
                   (b = true -> starts_with_space l = false)
                   /\ Forall (fun l' => starts_with_space l' = false) ls
               end).
    { intros X HX b Hb. cbn [lines]. rewrite Enl.
      destruct (lines X) as [|l ls].
      - split; [exact Hb|constructor].
      - split; [exact Hb|exact (proj2 HX)]. }
    destruct (is_char c space) eqn:Esp.
    + destruct t.
      * rewrite trim_rest_space by exact Esp. exact (IH true).
      * rewrite (trim_rest_kept false) by (exact Enl || discriminate).
        apply Hkept; [exact (IH false)|discriminate].
    + rewrite (trim_rest_kept t) by (exact Enl || (intros _; exact Esp)).
      apply Hkept; [exact (IH false)|intros _; reflexivity].
Qed.

(** No line of the result starts with a space. *)
Theorem trim_leading_spaces_no_leading_space (s t : cstring) :
  trim_leading_spaces s = Ret t ->
  Forall (fun l => starts_with_space l = false) (lines t).
Proof.
  rewrite trim_leading_spaces_lines_aux. unfold finish. cbn [Z.add rev app].
  destruct (strlen (trim_text s) <? BUFLEN); [|discriminate].
  intros H. injection H as <-. unfold trim_text.
  rewrite <- rest_of_lines_same.
  pose proof (trim_rest_clean s true) as H. cbn [trim_line] in H.
  destruct (lines _) as [|l ls]; [constructor|].
  destruct H as [H1 H2]. constructor; [exact (H1 eq_refl)|exact H2].
Qed.

Lemma trim_leading_spaces_no_leading_space_witness :
  Forall (fun l => starts_with_space l = false)
    (lines (cstr "a\nb \n\nc d\n")).
Proof.
  apply (trim_leading_spaces_no_leading_space (cstr "  a\n b \n\n   c d\n")).
  vm_compute. reflexivity.
Defined.

(** ** indent with a negative or null [delta], line by line *)

Lemma strip_line_nil (j : nat) : strip_line j [] = [].
Proof. unfold strip_line. cbn. rewrite Nat.min_0_r. reflexivity. Qed.

Lemma strip_line_zero (l : cstring) : strip_line 0 l = l.
Proof. reflexivity. Qed.

Lemma strip_line_space (j : nat) (c : ascii) (l : cstring) :
  is_char c space = true -> strip_line (S j) (c :: l) = strip_line j l.
Proof.
  intros H. unfold strip_line. rewrite strspn_cons_space, H. reflexivity.
Qed.

Lemma strip_line_other (j : nat) (l : cstring) :
  strspn l [space] = O -> strip_line j l = l.
Proof.
  intros H. unfold strip_line. rewrite H, Nat.min_0_r. reflexivity.
Qed.

Lemma first_line_other (san : bool) (j : nat) (l : cstring) :
  strspn l [space] = O -> first_line san j l = l.
Proof.
  intros H. destruct san; [apply strip_line_other; exact H|reflexivity].
Qed.

Lemma first_line_flag (d : nat) (b : bool) (k : nat) (s : cstring) :
  rest_of_lines (first_line (b && starts_with_space s) k) (strip_line d) s
  = rest_of_lines (first_line b k) (strip_line d) s.
Proof.
  destruct b; [|reflexivity]. cbn [andb].
  destruct (starts_with_space s) eqn:E; [reflexivity|].
  apply rest_of_lines_first; [exact E|]. intros l Hl.
  rewrite !first_line_other by exact Hl. reflexivity.
Qed.

Lemma indent_loop_lines (d : nat) (s : cstring) :
  forall (san : bool) (j : nat) (dst : Z) (out : cstring),
    dst < BUFLEN ->
    (san = true -> j <> O ->
     match s with
     | c :: _ => is_char c space = true \/ is_char c nl = true
     | [] => True
     end) ->
    indent_loop (- Z.of_nat d) s san (- Z.of_nat j) dst out
    = finish "indent buffer too small" dst out
        (rest_of_lines (first_line san j) (strip_line d) s).
Proof.
  induction s as [|c s IH]; intros san j dst out Hdst Hpre.
  - cbn [indent_loop]. unfold rest_of_lines. cbn [lines].
    rewrite finish_nil by exact Hdst. reflexivity.
  - assert (Hnext : forall (b : bool) (k : nat) (dst' : Z) (out' : cstring),
               dst' < BUFLEN ->
               indent_loop (- Z.of_nat d) s
                 match s with
                 | c' :: _ => if is_char c' space then b else false
                 | [] => false
                 end (- Z.of_nat k) dst' out'
               = finish "indent buffer too small" dst' out'
                   (rest_of_lines (first_line b k) (strip_line d) s)).
    { intros b k dst' out' Hd.
      replace (match s with
               | c' :: _ => if is_char c' space then b else false
               | [] => false
               end) with (b && starts_with_space s)
        by (destruct s as [|c' s']; cbn;
            [apply andb_false_r|destruct (is_char c' space), b; reflexivity]).
      rewrite IH; [|exact Hd|].
      - rewrite first_line_flag. reflexivity.
      - intros Hs _. apply andb_true_iff in Hs. destruct Hs as [_ Hs].
        destruct s; [exact I|left; exact Hs]. }
    cbn [indent_loop].
    replace (0 <? - Z.of_nat j) with false
      by (symmetry; apply Z.ltb_ge; lia).
    destruct (is_char c nl) eqn:Enl.
    + apply is_char_eq in Enl. subst c.
      replace (is_char nl space) with false by reflexivity.
      rewrite andb_false_r. cbn [andb].
      rewrite rest_of_lines_nl.
      replace (first_line san j [nl]) with [nl]
        by (symmetry; apply first_line_other; reflexivity).
      cbn [app]. apply finish_store. intros Hlt.
      rewrite Hnext by exact Hlt. reflexivity.
    + destruct (is_char c space) eqn:Esp.
      * destruct san; cbn [andb].
        -- destruct j as [|k].
           ++ replace (- Z.of_nat 0 <? 0) with false by reflexivity.
              rewrite (rest_of_lines_cons (first_line true 0)
                         (first_line true 0) (strip_line d) c [c])
                by (exact Enl || reflexivity).
              apply finish_store. intros Hlt.
              rewrite Hnext by exact Hlt. reflexivity.
           ++ replace (- Z.of_nat (S k) <? 0) with true
                by (symmetry; apply Z.ltb_lt; lia).
              replace (- Z.of_nat (S k) + 1) with (- Z.of_nat k) by lia.
              rewrite Hnext by exact Hdst. f_equal. symmetry.
              apply (rest_of_lines_cons _ (first_line true k)
                       (strip_line d) c []);
                [exact Enl|apply strip_line_nil|].
              intros l. cbn [first_line app].
              apply strip_line_space. exact Esp.
        -- rewrite (rest_of_lines_cons (first_line false j)
                      (first_line false j) (strip_line d) c [c])
             by (exact Enl || reflexivity).
           apply finish_store. intros Hlt.
           rewrite Hnext by exact Hlt. reflexivity.
      * rewrite andb_false_r. cbn [andb].
        assert (Hkeep : forall l,
                   first_line san j (c :: l) = [c] ++ first_line san j l).
        { intros l. destruct san; [|reflexivity].
          destruct j as [|k]; [reflexivity|].
          destruct (Hpre eq_refl (Nat.neq_succ_0 k)) as [H|H]; congruence. }
        rewrite (rest_of_lines_cons (first_line san j) (first_line san j)
                   (strip_line d) c [c] s Enl);
          [|destruct san; [apply strip_line_nil|reflexivity]|exact Hkeep].
        apply finish_store. intros Hlt.
        rewrite Hnext by exact Hlt. reflexivity.
Qed.

Lemma indent_lines_aux (d : nat) (s : cstring) :
  d = O \/ at_line_start s = true ->
  indent s (- Z.of_nat d)
  = finish "indent buffer too small" 0 [] (unindent d s).
Proof.
  intros H. unfold indent. rewrite indent_loop_lines; [|reflexivity|].
  - unfold first_line. rewrite rest_of_lines_same. reflexivity.
  - intros _ Hd. destruct H as [H|H]; [contradiction|].
    destruct s as [|c s]; [exact I|]. cbn [at_line_start] in H.
    apply orb_true_iff in H. exact H.
Qed.

(** [indent] with a negative or null [delta] strips up to [-delta] leading
    spaces from every line and keeps the rest, provided [delta] is null or
    the text starts where a line starts (it is empty, or its first
    character is a space or a newline).  It aborts exactly when what is
    left does not fit the buffer with its NUL. *)
Theorem indent_strips_lines (d : nat) (s : cstring) :
  d = O \/ at_line_start s = true ->
  indent s (- Z.of_nat d)
  = if strlen (unindent d s) <? BUFLEN then Ret (unindent d s)
    else Die "indent buffer too small".
Proof. intros H. rewrite (indent_lines_aux d s H). reflexivity. Qed.

Lemma indent_strips_lines_witness :
  indent (cstr "      a\n    b\n  c\n\nd e\n") (- Z.of_nat 4)
  = Ret (cstr "  a\nb\nc\n\nd e\n").
Proof.
  rewrite (indent_strips_lines 4 (cstr "      a\n    b\n  c\n\nd e\n"));
    [vm_compute; reflexivity|right; vm_compute; reflexivity].
Defined.

Lemma unindent_zero (s : cstring) : unindent 0 s = s.
Proof.
  unfold unindent. rewrite <- (lines_concat s) at 2. f_equal.
  induction (lines s) as [|l ls IH]; [reflexivity|].
  cbn [map]. rewrite IH. reflexivity.
Qed.

(** With a null [delta], [indent] copies the text. *)
Theorem indent_zero_copies (s : cstring) :
  indent s 0
  = if strlen s <? BUFLEN then Ret s else Die "indent buffer too small".
Proof.
  change 0 with (- Z.of_nat 0).
  rewrite (indent_lines_aux 0 s) by (left; reflexivity).
  rewrite unindent_zero. reflexivity.
Qed.

(** ** indent never lengthens a text *)

Lemma indent_loop_length (spaces : Z) (s : cstring) :
  forall (san : bool) (delta dst : Z) (out : cstring),
    dst + strlen s < BUFLEN ->
    exists r : cstring,
      indent_loop spaces s san delta dst out = Ret (rev out ++ r)
      /\ strlen r <= strlen s
      /\ (0 <= spaces -> 0 <= delta -> strlen r = strlen s).
Proof.
  induction s as [|c s IH]; intros san delta dst out Hfit.
  - exists []. cbn. rewrite app_nil_r. repeat split; reflexivity.
  - rewrite strlen_cons in Hfit. pose proof (strlen_nonneg s) as Hs.
    assert (Hstore : forall (x : ascii) (san' : bool) (delta' : Z),
               (0 <= spaces -> 0 <= delta -> 0 <= delta') ->
               exists r : cstring,
                 indent_loop spaces s san' delta' (dst + 1) (x :: out)
                 = Ret (rev out ++ r)
                 /\ strlen r <= strlen (c :: s)
                 /\ (0 <= spaces -> 0 <= delta ->
                     strlen r = strlen (c :: s))).
    { intros x san' delta' Hd.
      destruct (IH san' delta' (dst + 1) (x :: out)) as [r [H1 [H2 H3]]];
        [lia|].
      exists (x :: r). rewrite H1. cbn [rev]. rewrite <- app_assoc.
      split; [reflexivity|]. rewrite !strlen_cons. split; [lia|].
      intros Ha Hb. rewrite H3; [reflexivity|exact Ha|exact (Hd Ha Hb)]. }
    cbn [indent_loop].
    replace (BUFLEN <=? dst + 1) with false
      by (symmetry; apply Z.leb_gt; lia).
    destruct (0 <? delta) eqn:Epos.
    + apply Z.ltb_lt in Epos. apply Hstore. intros Ha _.
      destruct (is_char c nl); lia.
    + apply Z.ltb_ge in Epos.
      destruct (san && is_char c space && (delta <? 0)) eqn:Eskip.
      * apply andb_true_iff in Eskip. destruct Eskip as [_ Eneg].
        apply Z.ltb_lt in Eneg.
        match goal with
        | |- exists r, indent_loop _ _ ?a ?b _ _ = _ /\ _ =>
            destruct (IH a b dst out) as [r [H1 [H2 H3]]]; [lia|]
        end.
        exists r. split; [exact H1|]. rewrite strlen_cons.
        split; [lia|]. intros _ Hb. lia.
      * apply Hstore. intros Ha Hb. destruct (is_char c nl); lia.
Qed.

(** A text that fits the buffer is never refused by [indent], whatever
    [delta], and never comes out longer: with a positive or null [delta]
    it keeps its length, each space written taking the place of a
    character. *)
Theorem indent_never_lengthens (s : cstring) (delta : Z) :
  strlen s < BUFLEN ->
  exists r : cstring,
    indent s delta = Ret r
    /\ strlen r <= strlen s
    /\ (0 <= delta -> strlen r = strlen s).
Proof.
  intros Hfit. unfold indent.
  destruct (indent_loop_length delta s true delta 0 []) as [r [H1 [H2 H3]]];
    [lia|].
  exists r. split; [exact H1|]. split; [exact H2|].
  intros Hd. exact (H3 Hd Hd).
Qed.

Lemma indent_never_lengthens_witness :
  exists r : cstring,
    indent (cstr "  int x;\n") 3 = Ret r
    /\ strlen r <= strlen (cstr "  int x;\n")
    /\ (0 <= 3 -> strlen r = strlen (cstr "  int x;\n")).
Proof.
  apply indent_never_lengthens. vm_compute. reflexivity.
Defined.

(** ** esc *)

Lemma esc_loop_text (s : cstring) :
  forall (prev : option ascii) (b b' : esc_buf),
    esc_loop prev s b = (b', Ret tt) ->
    map snd (rev (esc_log b'))
    = map snd (rev (esc_log b)) ++ esc_text prev s.
Proof.
  induction s as [|c s IH]; intros prev b b' H; cbn [esc_loop] in H.
  - injection H as <-. cbn. rewrite app_nil_r. reflexivity.
  - destruct (BUFLEN <? esc_dst b); [discriminate H|].
    apply IH in H. rewrite H. cbn [esc_text].
    destruct (is_char c backslash), (is_quote_or_dot c && after_newline prev);
      cbn [esc_put esc_log esc_dst rev map snd app];
      rewrite ?map_app; cbn [map snd]; rewrite <- ?app_assoc; reflexivity.
Qed.

Lemma esc_ret_text (s o : cstring) : esc s = Ret o -> o = esc_text None s.
Proof.
  unfold esc, esc_run. destruct (esc_loop None s esc_init) as [b r] eqn:E.
  destruct r as [[]| |]; cbn [snd]; intros H; try discriminate H.
  injection H as <-. apply esc_loop_text in E. exact E.
Qed.

Lemma unesc_esc_text (s : cstring) :
  forall prev : option ascii, unesc (esc_text prev s) = s.
Proof.
  induction s as [|c s IH]; intros prev; [reflexivity|].
  cbn [esc_text]. destruct (is_char c backslash) eqn:Eb.
  - replace (is_quote_or_dot c) with false
      by (apply is_char_eq in Eb; subst c; reflexivity).
    cbn [andb app unesc].
    replace (is_char backslash backslash) with true by reflexivity.
    rewrite IH. reflexivity.
  - destruct (is_quote_or_dot c && after_newline prev); cbn [app unesc].
    + replace (is_char backslash backslash) with true by reflexivity.
      rewrite IH. reflexivity.
    + rewrite Eb, IH. reflexivity.
Qed.

(** Nothing is lost in escaping: dropping every backslash that announces
    a character, and keeping that character, gives the text back.  Two
    texts with the same escaped form are therefore the same. *)
Theorem esc_reads_back (s o : cstring) : esc s = Ret o -> unesc o = s.
Proof.
  intros H. apply esc_ret_text in H. subst o. apply unesc_esc_text.
Qed.

Lemma esc_reads_back_witness :
  unesc (cstr "a\\\\b\n\\.c\n\\'d.e") = cstr "a\\b\n.c\n'd.e".
Proof.
  apply (esc_reads_back (cstr "a\\b\n.c\n'd.e")). vm_compute. reflexivity.
Defined.

Lemma line_mark_app (a b : cstring) (x : ascii) :
  line_mark ((a ++ [x]) ++ b)
  = line_mark (a ++ [x])
    || (is_char x nl && match b with
                        | d :: _ => is_quote_or_dot d
                        | [] => false
                        end)
    || line_mark b.
Proof.
  induction a as [|y a IH].
  - cbn. rewrite andb_false_r, orb_false_r. cbn. 
    destruct b; reflexivity.
  - cbn [app line_mark]. rewrite IH.
    destruct a as [|z a]; cbn [app]; rewrite <- !orb_assoc; reflexivity.
Qed.

(** The escaped text after [w], whose last character is the last
    character read, has no line-leading apostrophe or period beyond those
    of [w]. *)
Lemma line_mark_esc_text (s : cstring) :
  forall (w : cstring) (p : ascii),
    line_mark (w ++ [p]) = false ->
    line_mark ((w ++ [p]) ++ esc_text (Some p) s) = false.
Proof.
  induction s as [|c s IH]; intros w p Hw.
  - cbn [esc_text]. rewrite app_nil_r. exact Hw.
  - cbn [esc_text after_newline].
    assert (Hjoin : forall pre : cstring,
               line_mark ((w ++ [p]) ++ pre ++ [c]) = false ->
               line_mark ((w ++ [p]) ++ pre ++ c :: esc_text (Some c) s)
               = false).
    { intros pre H.
      replace ((w ++ [p]) ++ pre ++ c :: esc_text (Some c) s)
        with ((((w ++ [p]) ++ pre) ++ [c]) ++ esc_text (Some c) s)
        by (rewrite <- !app_assoc; reflexivity).
      apply IH. rewrite <- app_assoc. exact H. }
    destruct (is_char c backslash) eqn:Eb.
    + replace (is_quote_or_dot c) with false
        by (apply is_char_eq in Eb; subst c; reflexivity).
      cbn [andb app]. apply (Hjoin [backslash]).
      apply is_char_eq in Eb. subst c. rewrite line_mark_app, Hw.
      cbn. rewrite !andb_false_r. reflexivity.
    + destruct (is_quote_or_dot c) eqn:Em; cbn [andb].
      * destruct (is_char p nl) eqn:En; cbn [app].
        -- apply (Hjoin [backslash]). rewrite line_mark_app, Hw.
           cbn. rewrite !andb_false_r. cbn.
           destruct (is_char c nl); reflexivity.
        -- apply (Hjoin []). cbn [app]. rewrite line_mark_app, Hw, En.
           cbn. rewrite andb_false_r. reflexivity.
      * cbn [app]. apply (Hjoin []). cbn [app].
        rewrite line_mark_app, Hw. cbn [line_mark]. rewrite Em.
        rewrite !andb_false_r. reflexivity.
Qed.

(** In the escaped text no newline is followed by a bare apostrophe or
    period. *)
Theorem esc_no_line_mark (s o : cstring) :
  esc s = Ret o -> line_mark o = false.
Proof.
  intros H. apply esc_ret_text in H. subst o.
  destruct s as [|c s]; [reflexivity|]. cbn [esc_text after_newline].
  rewrite andb_false_r. cbn [app].
  destruct (is_char c backslash).
  - apply (line_mark_esc_text s [backslash] c). cbn.
    rewrite !andb_false_r. reflexivity.
  - apply (line_mark_esc_text s [] c). cbn. rewrite andb_false_r.
    reflexivity.
Qed.

Lemma esc_no_line_mark_witness :
  line_mark (cstr "a\n\\.b\n\\'c\n") = false.
Proof.
  apply (esc_no_line_mark (cstr "a\n.b\n'c\n")). vm_compute. reflexivity.
Defined.

(** The first character of a text is never taken for line-leading: an
    apostrophe or a period that opens the text is copied bare. *)
Theorem esc_first_character_bare (c : ascii) (s o : cstring) :
  is_quote_or_dot c = true ->
  esc (c :: s) = Ret o ->
  exists o', o = c :: o'.
Proof.
  intros Hc H. apply esc_ret_text in H. subst o. cbn [esc_text after_newline].
  rewrite andb_false_r.
  replace (is_char c backslash) with false.
  - eexists. reflexivity.
  - unfold is_quote_or_dot in Hc. apply orb_true_iff in Hc.
    destruct Hc as [Hc|Hc]; apply is_char_eq in Hc; subst c; reflexivity.
Qed.

Lemma esc_first_character_bare_witness :
  exists o', cstr ".TH not a macro\n" = "."%char :: o'.
Proof.
  apply (esc_first_character_bare "."%char (cstr "TH not a macro\n")).
  - reflexivity.
  - vm_compute. reflexivity.
Defined.

Lemma esc_loop_small (s : cstring) :
  forall (prev : option ascii) (b : esc_buf),
    esc_dst b + 2 * strlen s < BUFLEN ->
    Z.of_nat (List.length (esc_log b)) = esc_dst b ->
    Forall (fun p => fst p < esc_dst b) (esc_log b) ->
    exists b' : esc_buf,
      esc_loop prev s b = (b', Ret tt)
      /\ esc_dst b + strlen s <= esc_dst b' <= esc_dst b + 2 * strlen s
      /\ Z.of_nat (List.length (esc_log b')) = esc_dst b'
      /\ Forall (fun p => fst p < esc_dst b') (esc_log b').
Proof.
  induction s as [|c s IH]; intros prev b Hfit Hlen Hlog.
  - exists b. cbn. repeat split; try assumption; lia.
  - rewrite strlen_cons in Hfit. pose proof (strlen_nonneg s) as Hs.
    cbn [esc_loop].
    replace (BUFLEN <? esc_dst b) with false
      by (symmetry; apply Z.ltb_ge; lia).
    assert (Hput : forall (x : ascii) (b0 : esc_buf),
               Z.of_nat (List.length (esc_log b0)) = esc_dst b0 ->
               Forall (fun p => fst p < esc_dst b0) (esc_log b0) ->
               Z.of_nat (List.length (esc_log (esc_put x b0)))
               = esc_dst (esc_put x b0)
               /\ Forall (fun p => fst p < esc_dst (esc_put x b0))
                    (esc_log (esc_put x b0))).
    { intros x b0 H1 H2. cbn [esc_put esc_log esc_dst List.length].
      split; [lia|]. constructor; [cbn; lia|].
      eapply Forall_impl; [|exact H2]. cbn. intros p Hp. lia. }
    match goal with
    | |- exists b', esc_loop _ _ (esc_put c ?b2) = _ /\ _ =>
        assert (Hb2 : esc_dst b <= esc_dst b2 <= esc_dst b + 1
                      /\ Z.of_nat (List.length (esc_log b2)) = esc_dst b2
                      /\ Forall (fun p => fst p < esc_dst b2) (esc_log b2));
        [|destruct Hb2 as [Hd2 [Hl2 Hf2]];
          destruct (Hput c b2 Hl2 Hf2) as [Hl3 Hf3];
          destruct (IH (Some c) (esc_put c b2)) as [b' [Hrun [Hd [Hl Hf]]]];
          [cbn [esc_put esc_dst]; lia|exact Hl3|exact Hf3|];
          exists b'; split; [exact Hrun|]; split;
          [cbn [esc_put esc_dst] in Hd; rewrite strlen_cons; lia|];
          split; assumption]
    end.
    destruct (is_char c backslash) eqn:Eb.
    + replace (is_quote_or_dot c) with false
        by (apply is_char_eq in Eb; subst c; reflexivity).
      cbn [andb]. destruct (Hput backslash b Hlen Hlog) as [H1 H2].
      split; [cbn [esc_put esc_dst]; lia|]. split; assumption.
    + destruct (is_quote_or_dot c && after_newline prev).
      * destruct (Hput backslash b Hlen Hlog) as [H1 H2].
        split; [cbn [esc_put esc_dst]; lia|]. split; assumption.
      * split; [lia|]. split; assumption.
Qed.

Lemma out_of_bounds_nil (log : list (Z * ascii)) :
  Forall (fun p => fst p < BUFLEN) log -> out_of_bounds log = [].
Proof.
  intros H. unfold out_of_bounds. induction H as [|p log Hp _ IH].
  - reflexivity.
  - cbn [filter].
    replace (BUFLEN <=? fst p) with false by (symmetry; apply Z.leb_gt; lia).
    exact IH.
Qed.

(** A text of less than half the buffer is always escaped: [esc] returns
    a text at least as long and at most twice as long, and every store,
    the NUL included, falls inside [g_esc_buf]. *)
Theorem esc_small_text_is_safe (s : cstring) :
  2 * strlen s < BUFLEN ->
  exists o : cstring,
    esc s = Ret o
    /\ strlen s <= strlen o <= 2 * strlen s
    /\ out_of_bounds (esc_stores s) = [].
Proof.
  intros Hfit.
  destruct (esc_loop_small s None esc_init) as [b' [Hrun [Hd [Hl Hf]]]];
    [cbn [esc_init esc_dst]; lia|reflexivity|constructor|].
  cbn [esc_init esc_dst] in Hd.
  unfold esc, esc_stores, esc_run. rewrite Hrun. cbn [fst snd].
  eexists. split; [reflexivity|]. split.
  - unfold strlen at 2 3. rewrite length_map, length_rev. lia.
  - apply out_of_bounds_nil. apply Forall_rev. constructor.
    + cbn. lia.
    + eapply Forall_impl; [|exact Hf]. cbn. intros p Hp. lia.
Qed.

Lemma esc_small_text_is_safe_witness :
  exists o : cstring,
    esc (cstr "a\\b\n.c\n") = Ret o
    /\ strlen (cstr "a\\b\n.c\n") <= strlen o
       <= 2 * strlen (cstr "a\\b\n.c\n")
    /\ out_of_bounds (esc_stores (cstr "a\\b\n.c\n")) = [].
Proof.
  apply esc_small_text_is_safe. vm_compute. reflexivity.
Defined.

(** ** The accumulation buffer *)

Lemma strlen_zero (s : cstring) : (strlen s =? 0) = true -> s = [].
Proof.
  intros H. apply Z.eqb_eq in H. destruct s; [reflexivity|].
  rewrite strlen_cons in H. pose proof (strlen_nonneg s). lia.
Qed.

Ltac all_fields :=
  cbn [yy_start yy_at_bol yytext yy_input g_buf g_def_file stdout streams
       man3 set_start set_scan set_g_buf set_stdout set_files] in *.

Ltac unfold_actions :=
  cbv beta iota zeta
    delta [r_act seq_act skip BEGIN yyless0 bstart bappend bclear
           bstrlib_head heading par ol ul bq nf macrodesc func_par func_ex
           func_exit fprintf_def printf ECHO continue bind] in *.

(** The successful runs of an action, one by one. *)
Ltac runs :=
  unfold_actions;
  repeat match goal with
         | H : Ret _ = Ret _ |- _ => injection H as H; subst
         | H : Die _ = Ret _ |- _ => discriminate H
         | H : Crash = Ret _ |- _ => discriminate H
         | H : match ?x with _ => _ end = Ret _ |- _ =>
             destruct x eqn:?; unfold_actions
         end.

Ltac solve_buf :=
  unfold buf_inv; all_fields;
  repeat match goal with
         | H : yy_start ?st = _ |- context [yy_start ?st] => rewrite H
         end;
  split;
  [ first [ assumption
          | reflexivity
          | apply Z.leb_gt; assumption
          | match goal with
            | H : (BUFLEN <=? _) = false |- _ => apply Z.leb_gt in H
            end;
            unfold strlen in *; rewrite ?length_app; lia ]
  | let Hacc := fresh in
    intros Hacc; cbn [accumulating] in Hacc;
    first [ discriminate Hacc
          | reflexivity
          | solve [auto]
          | apply strlen_zero; assumption ] ].

Lemma rules_keep_buf :
  Forall (fun r => forall (m : mode) (bol : bool) (st st' : state),
              rule_active m bol r = true ->
              yy_start st = m ->
              buf_inv st ->
              r_act r st = Ret st' ->
              buf_inv st') rules.
Proof.
  unfold rules.
  repeat (apply Forall_cons;
          [intros m bol st st' Hact Hm [Hlen Hempty] Hrun;
           destruct m; try discriminate Hact; clear Hact;
           rewrite Hm in Hempty; cbn [accumulating] in Hempty;
           try specialize (Hempty eq_refl);
           first
             [ (* func_head only touches the streams *)
               cbn [r_act] in Hrun; unfold seq_act in Hrun;
               match type of Hrun with
               | context [func_head] =>
                   destruct (func_head st) as [st1| |] eqn:E;
                   cbn [bind] in Hrun; try discriminate Hrun;
                   unfold BEGIN in Hrun; injection Hrun as <-;
                   unfold func_head, open_deffile, fprintf_def in E;
                   inv_ret; all_fields; solve_buf
               end
             | runs; all_fields; solve_buf ]
          |]).
  apply Forall_nil.
Qed.

(** *** Invariants of the run

    A property of the state that every rule, every end-of-input rule and
    the default rule keep holds all along a run. *)

Section Invariants.

Variable P : state -> Prop.

Hypothesis rules_keep :
  Forall (fun r => forall (st : state) (n : nat) (st' : state),
              rule_active (yy_start st) (yy_at_bol st) r = true ->
              match_len (r_pat r) (yy_input st) = Some n ->
              P st ->
              r_act r (rule_setup n st) = Ret st' ->
              P st') rules.

Hypothesis eof_keeps :
  forall (st : state) (act : action) (st' : state),
    eof_rule (yy_start st) = Some act ->
    P st ->
    act (set_scan (yy_at_bol st) [] [] st) = Ret st' ->
    P st'.

Hypothesis echo_keeps :
  forall st st' : state, P st -> ECHO (rule_setup 1 st) = Ret st' -> P st'.

Lemma yy_step_keeps (st st' : state) :
  P st -> yy_step st = Continue st' -> P st'.
Proof.
  intros HP. unfold yy_step. destruct (yy_input st) as [|c inp] eqn:Hin.
  - destruct (eof_rule (yy_start st)) as [act|] eqn:He; [|discriminate].
    destruct (act _) as [st1| |] eqn:Hact; cbn [continue];
      intros H; try discriminate H.
    injection H as <-. exact (eof_keeps st act st1 He HP Hact).
  - destruct (find_rule st) as [[r n]|] eqn:Hf.
    + rewrite find_rule_unfold in Hf. apply best_match_spec in Hf.
      destruct Hf as [Hf|[Hr [Ha Hm]]]; [discriminate Hf|].
      destruct (r_act r (rule_setup n st)) as [st1| |] eqn:Hrun;
        cbn [continue]; intros H; try discriminate H.
      injection H as <-.
      exact (proj1 (Forall_forall _ _) rules_keep r Hr st n st1 Ha Hm HP
               Hrun).
    + destruct (ECHO (rule_setup 1 st)) as [st1| |] eqn:Hrun;
        cbn [continue]; intros H; try discriminate H.
      injection H as <-. exact (echo_keeps st st1 HP Hrun).
Qed.

Lemma yylex_loop_keeps (fuel : nat) :
  forall st st' : state,
    P st -> yylex_loop fuel st = Some (Ret st') -> P st'.
Proof.
  induction fuel as [|fuel IH]; intros st st' HP H; [discriminate H|].
  cbn [yylex_loop] in H. destruct (yy_step st) as [st1|st1|r] eqn:Hs.
  - injection H as <-. unfold yy_step in Hs.
    destruct (yy_input st); [|destruct (find_rule st) as [[r n]|];
      [destruct (r_act r _)|destruct (ECHO _)]; discriminate Hs].
    destruct (eof_rule (yy_start st)) as [act|];
      [destruct (act _); discriminate Hs|].
    injection Hs as <-. exact HP.
  - exact (IH st1 st' (yy_step_keeps st st1 HP Hs) H).
  - injection H as ->. pose proof (yy_step_reads st) as Hr.
    rewrite Hs in Hr. exfalso. exact (Hr st' eq_refl).
Qed.

Lemma yy_steps_keeps (n : nat) :
  forall st st' : state,
    P st -> yy_steps n st = Continue st' -> P st'.
Proof.
  induction n as [|n IH]; intros st st' HP H; cbn [yy_steps] in H.
  - injection H as <-. exact HP.
  - destruct (yy_step st) as [st1|st1|r] eqn:Hs; try discriminate H.
    exact (IH st1 st' (yy_step_keeps st st1 HP Hs) H).
Qed.

Lemma reachable_keeps (inp : cstring) (st : state) :
  P (start_state INITIAL inp) -> reachable inp st -> P st.
Proof. intros HP [n H]. exact (yy_steps_keeps n _ _ HP H). Qed.

End Invariants.

(** The state that [yylex] returns is the state after some number of
    turns. *)
Lemma yylex_loop_steps (fuel : nat) :
  forall st st' : state,
    yylex_loop fuel st = Some (Ret st') ->
    exists n : nat, yy_steps n st = Continue st'.
Proof.
  induction fuel as [|fuel IH]; intros st st' H; [discriminate H|].
  cbn [yylex_loop] in H. destruct (yy_step st) as [st1|st1|r] eqn:Hs.
  - injection H as <-. unfold yy_step in Hs.
    destruct (yy_input st); [|destruct (find_rule st) as [[r n]|];
      [destruct (r_act r _)|destruct (ECHO _)]; discriminate Hs].
    destruct (eof_rule (yy_start st)) as [act|];
      [destruct (act _); discriminate Hs|].
    injection Hs as <-. exists O. reflexivity.
  - destruct (IH st1 st' H) as [n Hn]. exists (S n).
    cbn [yy_steps]. rewrite Hs. exact Hn.
  - injection H as ->. pose proof (yy_step_reads st) as Hr.
    rewrite Hs in Hr. exfalso. exact (Hr st' eq_refl).
Qed.

Lemma yylex_reachable (inp : cstring) (st : state) :
  yylex inp = Some (Ret st) -> reachable inp st.
Proof. unfold yylex, yylex_from. apply yylex_loop_steps. Qed.

Lemma buf_inv_rules :
  Forall (fun r => forall (st : state) (n : nat) (st' : state),
              rule_active (yy_start st) (yy_at_bol st) r = true ->
              match_len (r_pat r) (yy_input st) = Some n ->
              buf_inv st ->
              r_act r (rule_setup n st) = Ret st' ->
              buf_inv st') rules.
Proof.
  eapply Forall_impl; [|exact rules_keep_buf].
  intros r Hr st n st' Ha _ Hinv Hrun.
  exact (Hr (yy_start st) (yy_at_bol st) (rule_setup n st) st' Ha eq_refl
           Hinv Hrun).
Qed.

Lemma buf_inv_eof (st : state) (act : action) (st' : state) :
  eof_rule (yy_start st) = Some act ->
  buf_inv st ->
  act (set_scan (yy_at_bol st) [] [] st) = Ret st' ->
  buf_inv st'.
Proof.
  intros He [Hlen Hempty] Hrun.
  destruct (yy_start st) eqn:Hm; cbn [eof_rule] in He; try discriminate He;
    injection He as <-; runs; all_fields; solve_buf.
Qed.

Lemma buf_inv_echo (st st' : state) :
  buf_inv st -> ECHO (rule_setup 1 st) = Ret st' -> buf_inv st'.
Proof.
  intros Hinv Hrun. unfold ECHO, printf in Hrun. injection Hrun as <-.
  exact Hinv.
Qed.

(** The accumulation buffer never outgrows its array and never carries a
    block over: in every state of a run, so after every turn and in the
    state that [yylex] returns, it holds less than [BUFLEN] characters,
    and it is empty whenever the scanner is outside the accumulating
    start conditions (lists, quote, Makefile example, table). *)
Theorem accumulation_buffer_invariant (inp : cstring) (st : state) :
  reachable inp st ->
  strlen (g_buf st) < BUFLEN
  /\ (accumulating (yy_start st) = false -> g_buf st = []).
Proof.
  apply (reachable_keeps buf_inv buf_inv_rules buf_inv_eof buf_inv_echo).
  split; [reflexivity|]. intros _. reflexivity.
Qed.

Lemma accumulation_buffer_invariant_witness :
  exists st : state,
    reachable (cstr "1. one\n   two\n\nText.\n") st
    /\ yy_start st = OL
    /\ g_buf st = cstr "1. one\n   two\n"
    /\ strlen (g_buf st) < BUFLEN
    /\ (accumulating (yy_start st) = false -> g_buf st = []).
Proof.
  eexists. split; [exists 2%nat; vm_compute; reflexivity|].
  split; [reflexivity|]. split; [reflexivity|].
  apply (accumulation_buffer_invariant (cstr "1. one\n   two\n\nText.\n")).
  exists 2%nat. vm_compute. reflexivity.
Defined.

(** ** The per-symbol stream and undefined behaviour *)

Lemma stream_write_open (ss : list stream) :
  forall (h : nat) (s : cstring) (ss' : list stream),
    stream_write ss h s = Some ss' -> stream_open ss' h = true.
Proof.
  induction ss as [|f ss IH]; intros h s ss' H; [discriminate H|].
  destruct h as [|h]; cbn [stream_write] in H.
  - destruct (s_open f); [|discriminate H]. injection H as <-. reflexivity.
  - destruct (stream_write ss h s) as [ss1|] eqn:E; [|discriminate H].
    injection H as <-. exact (IH h s ss1 E).
Qed.

Lemma stream_write_some (ss : list stream) :
  forall (h : nat) (s : cstring),
    stream_open ss h = true -> stream_write ss h s <> None.
Proof.
  induction ss as [|f ss IH]; intros h s H.
  - destruct h; discriminate H.
  - destruct h as [|h]; cbn [stream_write].
    + unfold stream_open in H. cbn in H. rewrite H. discriminate.
    + specialize (IH h s H). destruct (stream_write ss h s);
        [discriminate|contradiction].
Qed.

Lemma stream_close_some (ss : list stream) :
  forall h : nat, stream_open ss h = true -> stream_close ss h <> None.
Proof.
  induction ss as [|f ss IH]; intros h H.
  - destruct h; discriminate H.
  - destruct h as [|h]; cbn [stream_close].
    + unfold stream_open in H. cbn in H. rewrite H. discriminate.
    + specialize (IH h H). destruct (stream_close ss h);
        [discriminate|contradiction].
Qed.

Lemma stream_open_last (ss : list stream) (f : stream) :
  s_open f = true -> stream_open (ss ++ [f]) (List.length ss) = true.
Proof.
  intros H. unfold stream_open.
  rewrite nth_error_app2 by lia. rewrite Nat.sub_diag. exact H.
Qed.

(** The state [func_head] leaves once the name and the synopsis are
    found: a new stream, open, that holds the page. *)
Lemma func_head_state (st : state) (name syn : cstring) :
  func_name (yytext st) = Ret name ->
  func_synopsis (yytext st) = Ret syn ->
  func_head st
  = Ret (set_files (Some (List.length (streams st)))
           (streams st ++ [def_page name syn]) true st).
Proof.
  intros Hname Hsyn. unfold func_head. rewrite Hname. cbn [bind].
  rewrite Hsyn. cbn [bind]. unfold open_deffile, fprintf_def.
  cbn [g_def_file streams man3 set_files].
  rewrite stream_write_last by reflexivity. cbn [bind].
  cbn [g_def_file streams man3 set_files].
  rewrite stream_write_last by reflexivity. cbn [bind].
  cbn [g_def_file streams man3 set_files].
  rewrite stream_write_last by reflexivity. cbn [bind].
  cbn [g_def_file streams man3 set_files].
  rewrite stream_write_last by reflexivity.
  unfold def_page, set_files. cbn [s_path s_data app yy_start yy_at_bol
    yytext yy_input g_buf stdout].
  rewrite <- !app_assoc. reflexivity.
Qed.

Lemma func_head_ret (st st' : state) :
  func_head st = Ret st' ->
  exists name syn : cstring,
    func_name (yytext st) = Ret name
    /\ func_synopsis (yytext st) = Ret syn
    /\ st' = set_files (Some (List.length (streams st)))
               (streams st ++ [def_page name syn]) true st.
Proof.
  intros H.
  destruct (func_name (yytext st)) as [name| |] eqn:En;
    try (unfold func_head in H; rewrite En in H; discriminate H).
  destruct (func_synopsis (yytext st)) as [syn| |] eqn:Es;
    try (unfold func_head in H; rewrite En in H; cbn [bind] in H;
         rewrite Es in H; discriminate H).
  rewrite (func_head_state st name syn En Es) in H. injection H as <-.
  exists name, syn. repeat split.
Qed.

Lemma esc_loop_not_crash (s : cstring) :
  forall (prev : option ascii) (b : esc_buf),
    snd (esc_loop prev s b) <> Crash.
Proof.
  induction s as [|c s IH]; intros prev b; cbn [esc_loop].
  - discriminate.
  - destruct (BUFLEN <? esc_dst b); [discriminate|apply IH].
Qed.

Lemma esc_not_crash (s : cstring) : esc s <> Crash.
Proof.
  unfold esc, esc_run. pose proof (esc_loop_not_crash s None esc_init) as H.
  destruct (esc_loop None s esc_init) as [b r]. cbn [snd] in *.
  destruct r as [[]| |]; [discriminate|discriminate|contradiction].
Qed.

Lemma trim_not_crash (s : cstring) : trim_leading_spaces s <> Crash.
Proof.
  rewrite trim_leading_spaces_lines_aux. unfold finish.
  destruct (_ <? _); discriminate.
Qed.

Lemma indent_loop_not_crash (spaces : Z) (s : cstring) :
  forall (san : bool) (delta dst : Z) (out : cstring),
    indent_loop spaces s san delta dst out <> Crash.
Proof.
  induction s as [|c s IH]; intros san delta dst out; cbn [indent_loop].
  - discriminate.
  - destruct (0 <? delta); [destruct (BUFLEN <=? dst + 1);
                            [discriminate|apply IH]|].
    destruct (san && is_char c space && (delta <? 0)); [apply IH|].
    destruct (BUFLEN <=? dst + 1); [discriminate|apply IH].
Qed.

Lemma indent_not_crash (s : cstring) (d : Z) : indent s d <> Crash.
Proof. apply indent_loop_not_crash. Qed.

Lemma func_name_not_crash (s : cstring) : func_name s <> Crash.
Proof.
  unfold func_name. destruct (regexec FUNC_RE s) as [[so eo]|]; discriminate.
Qed.

Ltac solve_func :=
  unfold func_inv; all_fields;
  repeat match goal with
         | H : yy_start ?st = _ |- context [yy_start ?st] => rewrite H
         end;
  let Hin := fresh in
  intros Hin; cbn [in_func] in Hin;
  first [ discriminate Hin
        | eexists; split;
          [ first [reflexivity|eassumption]
          | first [ eassumption
                  | eapply stream_write_open; eassumption ] ] ].

Lemma rules_keep_func :
  Forall (fun r => forall (m : mode) (bol : bool) (st st' : state),
              rule_active m bol r = true ->
              yy_start st = m ->
              func_inv st ->
              r_act r st = Ret st' ->
              func_inv st') rules.
Proof.
  unfold rules.
  repeat (apply Forall_cons;
          [intros m bol st st' Hact Hm Hinv Hrun;
           destruct m; try discriminate Hact; clear Hact;
           unfold func_inv in Hinv; rewrite Hm in Hinv;
           cbn [in_func] in Hinv;
           try (destruct (Hinv eq_refl) as [h [Hg Ho]]); clear Hinv;
           first
             [ cbn [r_act] in Hrun; unfold seq_act in Hrun;
               match type of Hrun with
               | context [func_head] =>
                   destruct (func_head st) as [st1| |] eqn:E;
                   cbn [bind] in Hrun; try discriminate Hrun;
                   unfold BEGIN in Hrun; injection Hrun as <-;
                   apply func_head_ret in E;
                   destruct E as [name [syn [_ [_ ->]]]];
                   intros _; all_fields; eexists; split; [reflexivity|];
                   apply stream_open_last; reflexivity
               end
             | runs; all_fields; solve_func ]
          |]).
  apply Forall_nil.
Qed.

Lemma func_inv_rules :
  Forall (fun r => forall (st : state) (n : nat) (st' : state),
              rule_active (yy_start st) (yy_at_bol st) r = true ->
              match_len (r_pat r) (yy_input st) = Some n ->
              func_inv st ->
              r_act r (rule_setup n st) = Ret st' ->
              func_inv st') rules.
Proof.
  eapply Forall_impl; [|exact rules_keep_func].
  intros r Hr st n st' Ha _ Hinv Hrun.
  exact (Hr (yy_start st) (yy_at_bol st) (rule_setup n st) st' Ha eq_refl
           Hinv Hrun).
Qed.

Lemma func_inv_eof (st : state) (act : action) (st' : state) :
  eof_rule (yy_start st) = Some act ->
  func_inv st ->
  act (set_scan (yy_at_bol st) [] [] st) = Ret st' ->
  func_inv st'.
Proof.
  intros He _ Hrun.
  destruct (yy_start st) eqn:Hm; cbn [eof_rule] in He; try discriminate He;
    injection He as <-; runs; all_fields; solve_func.
Qed.

Lemma func_inv_echo (st st' : state) :
  func_inv st -> ECHO (rule_setup 1 st) = Ret st' -> func_inv st'.
Proof.
  intros Hinv Hrun. unfold ECHO, printf in Hrun. injection Hrun as <-.
  exact Hinv.
Qed.

(** The stream of a function page is open as long as the scanner is in
    the page: in every state of a run that is in one of the function
    start conditions, so also when [yylex] returns inside a page, the
    file pointer is set and its stream is open, never closed. *)
Theorem function_page_stream_is_open (inp : cstring) (st : state) :
  reachable inp st ->
  in_func (yy_start st) = true ->
  exists h : nat,
    g_def_file st = Some h /\ stream_open (streams st) h = true.
Proof.
  apply (reachable_keeps func_inv func_inv_rules func_inv_eof
           func_inv_echo).
  intros Hin. discriminate Hin.
Qed.

Lemma function_page_stream_is_open_witness :
  exists st : state,
    reachable
      (cstr "The functions\n-----\n\nextern int bfoo (void);\n\nText.\n")
      st
    /\ yy_start st = FUNC_BODY
    /\ exists h : nat,
         g_def_file st = Some h /\ stream_open (streams st) h = true.
Proof.
  eexists. split; [exists 2%nat; vm_compute; reflexivity|].
  split; [reflexivity|].
  apply (function_page_stream_is_open
           (cstr "The functions\n-----\n\nextern int bfoo (void);\n\nText.\n"));
    [exists 2%nat; vm_compute; reflexivity|reflexivity].
Defined.

(** *** Texts that end with a newline *)

Lemma last_cons (c : ascii) (s : cstring) :
  s <> [] -> last (c :: s) NUL = last s NUL.
Proof. destruct s; [contradiction|reflexivity]. Qed.

Lemma last_app_r (u v : cstring) :
  v <> [] -> last (u ++ v) NUL = last v NUL.
Proof.
  intros Hv. induction u as [|c u IH]; [reflexivity|].
  cbn [app]. rewrite last_cons; [exact IH|].
  destruct u; [exact Hv|discriminate].
Qed.

Lemma ends_nl_nonempty (s : cstring) : ends_nl s -> s <> [].
Proof. intros H ->. discriminate H. Qed.

Lemma ends_nl_app (u v : cstring) : ends_nl v -> ends_nl (u ++ v).
Proof.
  intros H. unfold ends_nl. rewrite last_app_r; [exact H|].
  apply ends_nl_nonempty. exact H.
Qed.

Lemma ends_nl_cons_inv (c : ascii) (s : cstring) :
  ends_nl (c :: s) -> (s = [] /\ c = nl) \/ ends_nl s.
Proof.
  intros H. destruct s as [|d s];
    [left; split; [reflexivity|exact H]|right; exact H].
Qed.

Lemma ends_nl_in (s : cstring) : ends_nl s -> In nl s.
Proof.
  induction s as [|c s IH]; intros H; [discriminate H|].
  destruct (ends_nl_cons_inv c s H) as [[_ ->]|H'];
    [left; reflexivity|right; exact (IH H')].
Qed.

Lemma index_in (c : ascii) (s : cstring) : In c s -> index s c <> None.
Proof.
  induction s as [|x s IH]; intros H; [destruct H|]. cbn [index].
  destruct (is_char x c) eqn:E; [discriminate|].
  destruct H as [H|H].
  - subst x. unfold is_char in E. rewrite Ascii.eqb_refl in E.
    discriminate E.
  - specialize (IH H). destruct (index s c); [discriminate|contradiction].
Qed.

Lemma match_len_matches (r : regex) (s : cstring) (n : nat) :
  match_len r s = Some n -> matches r (firstn n s).
Proof.
  unfold match_len. intros H.
  destruct (longest_spec s r O None) as [[k [_ [Hm [_ Hres]]]]|[_ Hres]];
    rewrite Hres in H; [|discriminate H].
  injection H as <-. exact Hm.
Qed.

Lemma matches_nl (w : cstring) : matches Nl w -> w = [nl].
Proof.
  intros H. inversion H as [|p c Hc| | | | |]. subst.
  unfold one in Hc. apply is_char_eq in Hc. subst c. reflexivity.
Qed.

Lemma matches_nonblank (w : cstring) : matches NONBLANK w -> ends_nl w.
Proof.
  unfold NONBLANK. cbn [Seq]. intros H.
  inversion H as [| |? ? u1 v1 _ H1| | | |]. subst.
  inversion H1 as [| |? ? u2 v2 _ H2| | | |]. subst.
  inversion H2 as [| |? ? u3 v3 _ H3| | | |]. subst.
  apply matches_nl in H3. subst. rewrite !app_assoc.
  unfold ends_nl. apply last_last.
Qed.

Lemma matches_star_ends (r : regex) (w : cstring) :
  (forall u, matches r u -> ends_nl u) ->
  matches (Star r) w -> w = [] \/ ends_nl w.
Proof.
  intros Hr H. remember (Star r) as r0 eqn:Er.
  induction H as [| | | | | |r' u v H1 _ H2 IH2]; try discriminate Er.
  - left. reflexivity.
  - injection Er as ->. right. destruct (IH2 eq_refl) as [->|Hv].
    + rewrite app_nil_r. exact (Hr u H1).
    + apply ends_nl_app. exact Hv.
Qed.

(** A block of non-blank lines ends with a newline. *)
Lemma matches_lines (w : cstring) : matches pat_lines w -> ends_nl w.
Proof.
  unfold pat_lines, Plus. intros H.
  inversion H as [| |? ? u v Hu Hv| | | |]. subst.
  destruct (matches_star_ends NONBLANK v matches_nonblank Hv) as [->|H'].
  - rewrite app_nil_r. exact (matches_nonblank u Hu).
  - apply ends_nl_app. exact H'.
Qed.

Lemma first_line_nl (san : bool) (j : nat) : first_line san j [nl] = [nl].
Proof. apply first_line_other. reflexivity. Qed.

Lemma unindent_rest_ends_nl (d : nat) (s : cstring) :
  forall (san : bool) (j : nat),
    ends_nl s ->
    ends_nl (rest_of_lines (first_line san j) (strip_line d) s).
Proof.
  induction s as [|c s IH]; intros san j H; [discriminate H|].
  destruct (is_char c nl) eqn:Enl.
  - apply is_char_eq in Enl. subst c.
    rewrite rest_of_lines_nl, first_line_nl.
    destruct (ends_nl_cons_inv nl s H) as [[-> _]|H']; [reflexivity|].
    apply (ends_nl_app [nl]). exact (IH true d H').
  - destruct (ends_nl_cons_inv c s H) as [[_ ->]|H']; [discriminate Enl|].
    destruct (is_char c space) eqn:Esp.
    + destruct san.
      * destruct j as [|k].
        -- rewrite (rest_of_lines_cons (first_line true 0)
                      (first_line true 0) (strip_line d) c [c])
             by (exact Enl || reflexivity).
           apply ends_nl_app. exact (IH true O H').
        -- rewrite (rest_of_lines_cons (first_line true (S k))
                      (first_line true k) (strip_line d) c [] s Enl
                      (strip_line_nil k)).
           ++ exact (IH true k H').
           ++ intros l. apply strip_line_space. exact Esp.
      * rewrite (rest_of_lines_cons (first_line false j)
                   (first_line false j) (strip_line d) c [c])
          by (exact Enl || reflexivity).
        apply ends_nl_app. exact (IH false j H').
    + rewrite (rest_of_lines_cons (first_line san j) (fun l => l)
                 (strip_line d) c [c] s Enl eq_refl).
      * apply ends_nl_app. exact (IH false O H').
      * intros l. cbn [app]. apply first_line_other.
        rewrite strspn_cons_space, Esp. reflexivity.
Qed.

Lemma unindent_ends_nl (d : nat) (s : cstring) :
  ends_nl s -> ends_nl (unindent d s).
Proof.
  intros H. unfold unindent. rewrite <- rest_of_lines_same.
  exact (unindent_rest_ends_nl d s true d H).
Qed.

Lemma esc_text_ends_nl (s : cstring) :
  forall prev : option ascii, ends_nl s -> ends_nl (esc_text prev s).
Proof.
  induction s as [|c s IH]; intros prev H; [discriminate H|].
  cbn [esc_text]. apply ends_nl_app, ends_nl_app.
  destruct (ends_nl_cons_inv c s H) as [[-> ->]|H'].
  - reflexivity.
  - apply (ends_nl_app [c]). exact (IH (Some c) H').
Qed.

Lemma strstr_prefix (needle : cstring) (s : cstring) :
  forall loc : nat,
    strstr s needle = Some loc -> is_prefix needle (skipn loc s) = true.
Proof.
  induction s as [|c s IH]; intros loc H; rewrite strstr_unfold in H.
  - destruct (is_prefix needle []) eqn:E; [|discriminate H].
    injection H as <-. exact E.
  - destruct (is_prefix needle (c :: s)) eqn:E.
    + injection H as <-. exact E.
    + destruct (strstr s needle) as [k|] eqn:Ek; [|discriminate H].
      injection H as <-. exact (IH k eq_refl).
Qed.

Lemma ends_nl_skipn (n : nat) (s : cstring) :
  skipn n s <> [] -> ends_nl s -> ends_nl (skipn n s).
Proof.
  revert s. induction n as [|n IH]; intros s Hne H; [exact H|].
  destruct s as [|c s]; [contradiction|]. cbn [skipn] in *.
  destruct (ends_nl_cons_inv c s H) as [[-> _]|H'].
  - destruct n; contradiction.
  - exact (IH s Hne H').
Qed.

(** The block that hides [extern] finds a newline after the qualifier
    whenever the prototype ends with one. *)
Lemma strip_extern_not_crash (s : cstring) :
  ends_nl s -> strip_extern s <> Crash.
Proof.
  intros H. unfold strip_extern.
  destruct (strstr s ext) as [loc|] eqn:E; [|discriminate].
  apply strstr_prefix, is_prefix_true in E. destruct E as [b E].
  assert (Hb : ends_nl (skipn (loc + List.length ext) s)).
  { rewrite Nat.add_comm, <- skipn_skipn, E, skipn_app_exact.
    assert (Hs : ends_nl (ext ++ b)).
    { rewrite <- E. apply ends_nl_skipn; [rewrite E; discriminate|exact H]. }
    destruct b as [|x b]; [discriminate Hs|].
    unfold ends_nl in *. rewrite last_app_r in Hs by discriminate.
    exact Hs. }
  destruct (index _ nl) as [n|] eqn:Ei.
  - destruct (_ <? _); discriminate.
  - exfalso. exact (index_in nl _ (ends_nl_in _ Hb) Ei).
Qed.

Lemma to_int_neg_size_t (k : Z) :
  0 <= k < 2 ^ 31 -> to_int (neg_size_t k) = - k.
Proof.
  intros Hk. unfold to_int, neg_size_t.
  change (2 ^ 64) with 18446744073709551616 in *.
  change (2 ^ 32) with 4294967296 in *.
  change (2 ^ 31) with 2147483648 in *.
  destruct (Z.eq_dec k 0) as [->|Hz]; [reflexivity|].
  replace ((18446744073709551616 - k) mod 18446744073709551616)
    with (18446744073709551616 - k) by (symmetry; apply Z.mod_small; lia).
  replace ((18446744073709551616 - k) mod 4294967296)
    with (4294967296 - k).
  - replace (4294967296 - k <? 2147483648) with false
      by (symmetry; apply Z.ltb_ge; lia).
    lia.
  - apply (Z.mod_unique _ _ 4294967295); [left; lia|lia].
Qed.

Lemma func_synopsis_not_crash (text : cstring) :
  ends_nl text -> strlen text < 2 ^ 31 -> func_synopsis text <> Crash.
Proof.
  intros Hend Hlen. unfold func_synopsis.
  assert (Hk : Z.of_nat (strspn text [space]) <= strlen text).
  { unfold strlen. apply inj_le. clear. induction text as [|c s IH].
    - cbn. lia.
    - rewrite strspn_cons_space. destruct (is_char c space); cbn; lia. }
  rewrite to_int_neg_size_t by lia.
  rewrite indent_lines_aux.
  - unfold finish. destruct (_ <? _); cbn [bind]; [|discriminate].
    cbn [rev app].
    destruct (esc (unindent _ text)) as [s2| |] eqn:Ee; cbn [bind].
    + apply strip_extern_not_crash. apply esc_ret_text in Ee. subst s2.
      apply esc_text_ends_nl, unindent_ends_nl. exact Hend.
    + discriminate.
    + exfalso. exact (esc_not_crash _ Ee).
  - destruct text as [|c s]; [right; reflexivity|].
    rewrite strspn_cons_space. cbn [at_line_start].
    destruct (is_char c space); [right; reflexivity|left; reflexivity].
Qed.

Lemma func_head_not_crash (st : state) :
  ends_nl (yytext st) -> strlen (yytext st) < 2 ^ 31 ->
  func_head st <> Crash.
Proof.
  intros Hend Hlen H.
  destruct (func_name (yytext st)) as [name| |] eqn:En.
  - destruct (func_synopsis (yytext st)) as [syn| |] eqn:Es.
    + rewrite (func_head_state st name syn En Es) in H. discriminate H.
    + unfold func_head in H. rewrite En in H. cbn [bind] in H.
      rewrite Es in H. discriminate H.
    + exact (func_synopsis_not_crash _ Hend Hlen Es).
  - unfold func_head in H. rewrite En in H. discriminate H.
  - exact (func_name_not_crash _ En).
Qed.

(** *** No rule leaves defined behaviour *)

Ltac crashes :=
  unfold_actions;
  repeat match goal with
         | H : Ret _ = Crash |- _ => discriminate H
         | H : Die _ = Crash |- _ => discriminate H
         | H : Ret _ = Ret _ |- _ => injection H as H; subst
         | H : Die _ = Ret _ |- _ => discriminate H
         | H : Crash = Ret _ |- _ => discriminate H
         | H : esc _ = Crash |- _ => destruct (esc_not_crash _ H)
         | H : trim_leading_spaces _ = Crash |- _ =>
             destruct (trim_not_crash _ H)
         | H : indent _ _ = Crash |- _ => destruct (indent_not_crash _ _ H)
         | H : match ?x with _ => _ end = Crash |- _ =>
             destruct x eqn:?; unfold_actions
         | H : match ?x with _ => _ end = Ret _ |- _ =>
             destruct x eqn:?; unfold_actions
         end.

Ltac stream_is_open :=
  try match goal with
      | Hg : Some _ = Some _ |- _ => injection Hg as <-
      end;
  first [ congruence
        | eapply stream_write_some; eassumption
        | eapply stream_close_some; eassumption ].

Lemma rules_safe :
  Forall (fun r => forall (m : mode) (bol : bool) (st : state),
              rule_active m bol r = true ->
              yy_start st = m ->
              func_inv st ->
              matches (r_pat r) (yytext st) ->
              strlen (yytext st) < 2 ^ 31 ->
              r_act r st <> Crash) rules.
Proof.
  unfold rules.
  repeat (apply Forall_cons;
          [intros m bol st Hact Hm Hinv Hmatch Hlen Hcrash;
           destruct m; try discriminate Hact; clear Hact;
           unfold func_inv in Hinv; rewrite Hm in Hinv;
           cbn [in_func] in Hinv;
           try (destruct (Hinv eq_refl) as [h [Hg Ho]]); clear Hinv;
           first
             [ cbn [r_act] in Hcrash; unfold seq_act in Hcrash;
               match type of Hcrash with
               | context [func_head] =>
                   cbn [r_pat] in Hmatch; apply matches_lines in Hmatch;
                   destruct (func_head st) as [st1| |] eqn:E;
                   cbn [bind] in Hcrash; try discriminate Hcrash;
                   exact (func_head_not_crash st Hmatch Hlen E)
               end
             | clear Hmatch; crashes; stream_is_open ]
          |]).
  apply Forall_nil.
Qed.

Lemma firstn_strlen (n : nat) (s : cstring) : strlen (firstn n s) <= strlen s.
Proof. unfold strlen. apply inj_le. rewrite length_firstn. lia. Qed.

Lemma yy_step_not_crash (st : state) :
  func_inv st -> strlen (yy_input st) < 2 ^ 31 ->
  yy_step st <> Failed Crash.
Proof.
  intros Hinv Hlen. unfold yy_step.
  destruct (yy_input st) as [|c inp] eqn:Hin.
  - destruct (eof_rule (yy_start st)) as [act|] eqn:He; [|discriminate].
    destruct (act _) as [st1| |] eqn:Hact; cbn [continue];
      try discriminate.
    exfalso. clear Hinv Hlen.
    destruct (yy_start st); cbn [eof_rule] in He; try discriminate He;
      injection He as <-; crashes.
  - destruct (find_rule st) as [[r n]|] eqn:Hf.
    + rewrite find_rule_unfold in Hf. apply best_match_spec in Hf.
      destruct Hf as [Hf|[Hr [Ha Hm]]]; [discriminate Hf|].
      destruct (r_act r (rule_setup n st)) as [st1| |] eqn:Hrun;
        cbn [continue]; try discriminate.
      exfalso.
      refine (proj1 (Forall_forall _ _) rules_safe r Hr (yy_start st)
                (yy_at_bol st) (rule_setup n st) Ha eq_refl Hinv _ _ Hrun).
      * exact (match_len_matches _ _ _ Hm).
      * pose proof (firstn_strlen n (yy_input st)) as Hn.
        rewrite Hin in Hn. unfold rule_setup. cbn [yytext set_scan].
        rewrite Hin. lia.
    + unfold ECHO, printf. cbn [continue]. discriminate.
Qed.

Lemma yy_step_shortens (st st' : state) :
  yy_step st = Continue st' -> strlen (yy_input st') <= strlen (yy_input st).
Proof.
  intros H. pose proof (yy_step_reads st) as Hr. rewrite H in Hr.
  apply turn_reads_advances in Hr. destruct Hr as [n [_ [-> _]]].
  unfold strlen. rewrite length_skipn. lia.
Qed.

Lemma yylex_loop_not_crash (fuel : nat) :
  forall st : state,
    func_inv st -> strlen (yy_input st) < 2 ^ 31 ->
    yylex_loop fuel st <> Some Crash.
Proof.
  induction fuel as [|fuel IH]; intros st Hinv Hlen; [discriminate|].
  cbn [yylex_loop]. destruct (yy_step st) as [st1|st1|r] eqn:Hs.
  - discriminate.
  - apply IH.
    + exact (yy_step_keeps func_inv func_inv_rules func_inv_eof
               func_inv_echo st st1 Hinv Hs).
    + pose proof (yy_step_shortens st st1 Hs). lia.
  - intros H. injection H as ->.
    exact (yy_step_not_crash st Hinv Hlen Hs).
Qed.

(** No NULL pointer and no dead stream is ever used: on a document
    without NUL bytes and of less than 2^31 characters [yylex] ends,
    normally or by [die], and neither reads through the NULL that [index]
    may return in [func_head], nor writes to or closes a stream that is
    missing or closed.  The document must hold no NUL byte because the
    actions read their lexeme as a C string: behind a NUL they would not
    see the newline that ends it.  ([malloc] is taken to succeed, and the
    stores of [esc] past its buffer are another matter and are not ruled
    out here.) *)
Theorem yylex_never_crashes (inp : cstring) :
  has_nul inp = false ->
  strlen inp < 2 ^ 31 ->
  exists r : result state, yylex inp = Some r /\ r <> Crash.
Proof.
  intros _ Hlen. unfold yylex, yylex_from.
  destruct (yylex_loop_total (turns (start_state INITIAL inp))
              (start_state INITIAL inp) (Nat.le_refl _)) as [r [Hr _]].
  exists r. split; [exact Hr|]. intros ->.
  refine (yylex_loop_not_crash _ _ _ _ Hr).
  - intros Hin. discriminate Hin.
  - exact Hlen.
Qed.

Lemma yylex_never_crashes_witness :
  exists r : result state,
    yylex (cstr "The functions\n-----\n\nextern int bfoo (void);\n\nText.\n")
    = Some r /\ r <> Crash.
Proof.
  apply yylex_never_crashes; vm_compute; reflexivity.
Defined.

(** ** Maximal munch *)

Lemma longer_spec (r : rule) (len : option nat) (best : option (rule * nat))
    (r' : rule) (n : nat) :
  longer r len best = Some (r', n) ->
  (best = Some (r', n)
   /\ match len with
      | Some k => (k <= n)%nat
      | None => True
      end)
  \/ (r' = r /\ len = Some n
      /\ match best with
         | Some (_, n0) => (n0 < n)%nat
         | None => True
         end).
Proof.
  unfold longer. destruct len as [k|]; [|intros H; left; split; [exact H|exact I]].
  destruct best as [[rb nb]|].
  - destruct (Nat.ltb nb k) eqn:E.
    + intros H. injection H as <- <-. right. apply Nat.ltb_lt in E.
      repeat split. exact E.
    + intros H. injection H as <- <-. left. apply Nat.ltb_ge in E.
      split; [reflexivity|exact E].
  - intros H. injection H as <- <-. right. repeat split.
Qed.

(** [best_match rs] returns the rule of [rs] with the longest match and,
    of several, the first one; a rule found before [rs] is kept unless
    [rs] has a longer match. *)
Lemma best_match_max (m : mode) (bol : bool) (inp : cstring)
    (rs : list rule) :
  forall (best : option (rule * nat)) (r : rule) (n : nat),
    best_match rs m bol inp best = Some (r, n) ->
    (forall r' n', In r' rs -> try_rule m bol inp r' = Some n' ->
                   (n' <= n)%nat)
    /\ match best with
       | Some (_, n0) => (n0 <= n)%nat
       | None => True
       end
    /\ (best = Some (r, n)
        \/ exists pre post,
             rs = pre ++ r :: post
             /\ try_rule m bol inp r = Some n
             /\ (forall r' n', In r' pre ->
                               try_rule m bol inp r' = Some n' ->
                               (n' < n)%nat)
             /\ match best with
                | Some (_, n0) => (n0 < n)%nat
                | None => True
                end).
Proof.
  induction rs as [|r0 rs IH]; intros best r n H; cbn [best_match] in H.
  - subst best. split; [intros r' n' []|]. split; [lia|left; reflexivity].
  - destruct (IH _ r n H) as [Hmax [Hbest Hwho]].
    assert (Hr0 : forall n', try_rule m bol inp r0 = Some n' -> (n' <= n)%nat).
    { intros n' E. rewrite E in Hbest. unfold longer in Hbest.
      destruct best as [[rb nb]|]; [|exact Hbest].
      destruct (Nat.ltb nb n') eqn:El; [exact Hbest|].
      apply Nat.ltb_ge in El. lia. }
    assert (Hb : match best with
                 | Some (_, n0) => (n0 <= n)%nat
                 | None => True
                 end).
    { destruct best as [[rb nb]|]; [|exact I]. unfold longer in Hbest.
      destruct (try_rule m bol inp r0) as [k|]; [|exact Hbest].
      destruct (Nat.ltb nb k) eqn:El; [|exact Hbest].
      apply Nat.ltb_lt in El. lia. }
    split; [|split; [exact Hb|]].
    + intros r' n' [<-|Hin] E; [exact (Hr0 n' E)|exact (Hmax r' n' Hin E)].
    + destruct Hwho as [Hwho|[pre [post [-> [Ht [Hpre Hlt]]]]]].
      * apply longer_spec in Hwho.
        destruct Hwho as [[-> _]|[-> [E Hlt]]]; [left; reflexivity|].
        right. exists [], rs. split; [reflexivity|]. split; [exact E|].
        split; [intros r' n' []|exact Hlt].
      * right. exists (r0 :: pre), post. split; [reflexivity|].
        split; [exact Ht|].
        assert (Hl : match best with
                     | Some (_, n0) => (n0 < n)%nat
                     | None => True
                     end
                     /\ forall n', try_rule m bol inp r0 = Some n' ->
                                   (n' < n)%nat).
        { unfold longer in Hlt.
          destruct (try_rule m bol inp r0) as [k|].
          - destruct best as [[rb nb]|].
            + destruct (Nat.ltb nb k) eqn:El.
              * apply Nat.ltb_lt in El. split; [lia|].
                intros n' E. injection E as <-. exact Hlt.
              * apply Nat.ltb_ge in El. split; [exact Hlt|].
                intros n' E. injection E as <-. lia.
            + split; [exact I|]. intros n' E. injection E as <-. exact Hlt.
          - split; [exact Hlt|]. intros n' E. discriminate E. }
        split; [|exact (proj1 Hl)].
        intros r' n' [<-|Hin] E; [exact (proj2 Hl n' E)|].
        exact (Hpre r' n' Hin E).
Qed.

Lemma best_match_none (m : mode) (bol : bool) (inp : cstring)
    (rs : list rule) :
  forall best : option (rule * nat),
    best_match rs m bol inp best = None ->
    best = None /\ forall r, In r rs -> try_rule m bol inp r = None.
Proof.
  induction rs as [|r0 rs IH]; intros best H; cbn [best_match] in H.
  - split; [exact H|intros r []].
  - destruct (IH _ H) as [Hl Hrs]. unfold longer in Hl.
    destruct (try_rule m bol inp r0) as [k|] eqn:E.
    + destruct best as [[rb nb]|]; [destruct (Nat.ltb nb k)|];
        discriminate Hl.
    + split; [exact Hl|]. intros r [<-|Hin]; [exact E|exact (Hrs r Hin)].
Qed.

(** The rule that fires is the active rule with the longest match and, of
    several with the longest match, the first of the file; the default
    rule is left only the input that no active rule matches. *)
Theorem find_rule_maximal_munch (st : state) :
  let try := try_rule (yy_start st) (yy_at_bol st) (yy_input st) in
  match find_rule st with
  | Some (r, n) =>
      exists pre post : list rule,
        rules = pre ++ r :: post
        /\ rule_active (yy_start st) (yy_at_bol st) r = true
        /\ match_len (r_pat r) (yy_input st) = Some n
        /\ (forall r' n', In r' pre -> try r' = Some n' -> (n' < n)%nat)
        /\ (forall r' n', In r' post -> try r' = Some n' -> (n' <= n)%nat)
  | None => forall r, In r rules -> try r = None
  end.
Proof.
  cbv zeta. rewrite find_rule_unfold.
  destruct (best_match rules _ _ _ None) as [[r n]|] eqn:E.
  - destruct (best_match_max _ _ _ _ _ _ _ E) as [Hmax [_ Hwho]].
    destruct Hwho as [Hwho|[pre [post [Hrs [Ht [Hpre _]]]]]];
      [discriminate Hwho|].
    exists pre, post. split; [exact Hrs|].
    unfold try_rule in Ht.
    destruct (rule_active (yy_start st) (yy_at_bol st) r) eqn:Ea;
      [|discriminate Ht].
    split; [reflexivity|]. split; [exact Ht|]. split; [exact Hpre|].
    intros r' n' Hin. apply Hmax. rewrite Hrs. apply in_or_app.
    right. right. exact Hin.
  - exact (proj2 (best_match_none _ _ _ _ _ E)).
Qed.

(** ** The name of a function page *)

Lemma regexec_from_spec (r : regex) (s : cstring) :
  forall so a b : nat,
    regexec_from r s so = Some (a, b) ->
    exists k n : nat,
      a = (so + k)%nat /\ b = (a + n)%nat /\ (k <= List.length s)%nat
      /\ match_len r (skipn k s) = Some n.
Proof.
  induction s as [|c s IH]; intros so a b H; cbn [regexec_from] in H.
  - destruct (match_len r []) as [n|] eqn:E; [|discriminate H].
    injection H as <- <-. exists O, n. cbn [skipn List.length].
    repeat split; [lia|lia|exact E].
  - destruct (match_len r (c :: s)) as [n|] eqn:E.
    + injection H as <- <-. exists O, n. cbn [skipn List.length].
      repeat split; [lia|lia|exact E].
    + destruct (IH _ _ _ H) as [k [n [Ha [Hb [Hk Hm]]]]].
      exists (S k), n. cbn [skipn List.length].
      repeat split; [lia|exact Hb|lia|exact Hm].
Qed.

Lemma matches_star_cls (p : cclass) (r : regex) (w : cstring) :
  matches r w -> r = Star (Cls p) -> Forall (fun x => p x = true) w.
Proof.
  induction 1 as [|q c Hc|r1 r2 u v _ _ _ _|r1 r2 u _ _|r1 r2 u _ _
                 |r0|r0 u v Hu _ _ IHv]; intros Hr; try discriminate Hr.
  - apply Forall_nil.
  - injection Hr as ->. apply Forall_app. split; [|exact (IHv eq_refl)].
    inversion Hu as [|q c Hc| | | | |]. subst.
    apply Forall_cons; [exact Hc|apply Forall_nil].
Qed.

Lemma matches_func_re (w : cstring) :
  matches FUNC_RE w ->
  exists (c : ascii) (body : cstring) (z : ascii) (sp : cstring),
    w = c :: (body ++ [z]) ++ sp ++ ["("%char]
    /\ (c = "b"%char \/ c = "u"%char)
    /\ Forall (fun x => name_char x = true) (body ++ [z])
    /\ (sp = [] \/ sp = [space]).
Proof.
  unfold FUNC_RE, Plus, Opt, Chr. intros H.
  inversion H as [| |r1 r2 u v Hu Hv| | | |]. subst. clear H.
  inversion Hu as [|p c Hc| | | | |]. subst. clear Hu.
  inversion Hv as [| |r1 r2 u1 v1 Hu1 Hv1| | | |]. subst. clear Hv.
  inversion Hu1 as [| |r1 r2 u2 v2 Hu2 Hv2| | | |]. subst. clear Hu1.
  inversion Hu2 as [|p c1 Hc1| | | | |]. subst. clear Hu2.
  inversion Hv1 as [| |r1 r2 u3 v3 Hu3 Hv3| | | |]. subst. clear Hv1.
  inversion Hv3 as [|p c3 Hc3| | | | |]. subst. clear Hv3.
  unfold one in Hc3. apply is_char_eq in Hc3. subst c3.
  pose proof (matches_star_cls _ _ _ Hv2 eq_refl) as Hall.
  assert (Hname : Forall (fun x => name_char x = true) ([c1] ++ v2))
    by (apply Forall_app; split;
        [apply Forall_cons; [exact Hc1|apply Forall_nil]|exact Hall]).
  destruct (exists_last (l := [c1] ++ v2)) as [body [z Hz]];
    [discriminate|].
  rewrite Hz in Hname. exists c, body, z, u3.
  split; [cbn [app]; rewrite <- Hz; reflexivity|].
  split.
  - unfold union, one in Hc. apply orb_true_iff in Hc.
    destruct Hc as [Hc|Hc]; apply is_char_eq in Hc; [left|right]; exact Hc.
  - split; [exact Hname|].
    inversion Hu3 as [| | |r1 r2 w0 Hw0|r1 r2 w0 Hw0| |]; subst.
    + inversion Hw0 as [|p c4 Hc4| | | | |]. subst.
      unfold one in Hc4. apply is_char_eq in Hc4. subst c4.
      right. reflexivity.
    + inversion Hw0. left. reflexivity.
Qed.

Ltac same_text :=
  repeat (progress (cbn [app]; rewrite <- ?app_assoc)); reflexivity.

Ltac text_length :=
  repeat (progress (rewrite ?length_app; cbn [List.length])); lia.

Lemma name_end_skip (text : cstring) (i : nat) (c : ascii) :
  nth (S i) text NUL = c ->
  c = "("%char \/ c = space ->
  name_end text (S i) = name_end text i.
Proof.
  intros Hn Hc. cbn [name_end]. rewrite Hn.
  destruct Hc as [->| ->]; reflexivity.
Qed.

Lemma name_end_stop (text : cstring) (i : nat) (c : ascii) :
  nth (S i) text NUL = c ->
  name_char c = true ->
  name_end text (S i) = S i.
Proof.
  intros Hn Hc. cbn [name_end]. rewrite Hn.
  destruct (is_char c "(") eqn:E1.
  - apply is_char_eq in E1. rewrite E1 in Hc. vm_compute in Hc.
    discriminate Hc.
  - destruct (is_char c space) eqn:E2; [|reflexivity].
    apply is_char_eq in E2. rewrite E2 in Hc. vm_compute in Hc.
    discriminate Hc.
Qed.

Lemma nth_after (a : cstring) (x : ascii) (b : cstring) (i : nat) :
  i = List.length a -> nth i (a ++ x :: b) NUL = x.
Proof. intros ->. apply nth_middle. Qed.

Lemma firstn_exact (a b : cstring) (n : nat) :
  n = List.length a -> firstn n (a ++ b) = a.
Proof.
  intros ->. rewrite firstn_app, Nat.sub_diag, firstn_all. cbn [firstn].
  apply app_nil_r.
Qed.

Lemma skipn_exact (a b : cstring) (n : nat) :
  n = List.length a -> skipn n (a ++ b) = b.
Proof.
  intros ->. rewrite skipn_app, Nat.sub_diag, skipn_all. reflexivity.
Qed.

Lemma name_char_no_slash (w : cstring) :
  Forall (fun x => name_char x = true) w -> ~ In "/"%char w.
Proof.
  intros H Hin. apply (proj1 (Forall_forall _ _) H) in Hin.
  vm_compute in Hin. discriminate Hin.
Qed.

(** The name of a function page is the identifier that [FUNC_RE] finds in
    the prototype, and nothing else: [func_name] returns the part of the
    lexeme that starts with the [b] or [u] of the match and runs over the
    letters, digits and dashes after it (at least one), and stops before
    the optional space and the parenthesis that end the match.  So the
    name is never empty and holds no slash: the page is a file of the
    directory man3 itself. *)
Theorem func_name_is_identifier (text name : cstring) :
  func_name text = Ret name ->
  exists (pre : cstring) (c : ascii) (rest sp post : cstring),
    text = pre ++ name ++ sp ++ "("%char :: post
    /\ name = c :: rest
    /\ (c = "b"%char \/ c = "u"%char)
    /\ rest <> []
    /\ Forall (fun x => name_char x = true) rest
    /\ (sp = [] \/ sp = [space])
    /\ ~ In "/"%char name.
Proof.
  unfold func_name, regexec. intros H.
  destruct (regexec_from FUNC_RE text O) as [[so eo]|] eqn:E;
    [|discriminate H].
  injection H as <-.
  destruct (regexec_from_spec _ _ _ _ _ E) as [k [n [Hso [Heo [Hk Hm]]]]].
  cbn [Nat.add] in Hso. subst so eo.
  pose proof (match_len_bound _ _ _ Hm) as [Hn _].
  apply match_len_matches in Hm. apply matches_func_re in Hm.
  destruct Hm as [c [body [z [sp [Hw [Hc [Hall Hsp]]]]]]].
  assert (Hlen : n = List.length (c :: (body ++ [z]) ++ sp ++ ["("%char]))
    by (rewrite <- Hw; rewrite length_firstn; lia).
  assert (Htext : text = firstn k text
                         ++ (c :: (body ++ [z]) ++ sp ++ ["("%char])
                         ++ skipn n (skipn k text))
    by (rewrite <- Hw, firstn_skipn, firstn_skipn; reflexivity).
  set (pre := firstn k text) in *. set (post := skipn n (skipn k text)) in *.
  assert (Hpre : List.length pre = k)
    by (unfold pre; rewrite length_firstn; lia).
  cbn [List.length] in Hlen. rewrite !length_app in Hlen.
  cbn [List.length] in Hlen.
  assert (Hend : name_end text (k + n - 1) = (k + List.length body + 1)%nat).
  { assert (Hz : name_end text (S (k + List.length body))
                 = S (k + List.length body)).
    { apply (name_end_stop _ _ z).
      - rewrite Htext.
        replace (pre ++ (c :: (body ++ [z]) ++ sp ++ ["("%char]) ++ post)
          with ((pre ++ c :: body) ++ z :: (sp ++ ["("%char]) ++ post)
          by same_text.
        apply nth_after. text_length.
      - apply Forall_app in Hall. destruct Hall as [_ Hz].
        inversion Hz. assumption. }
    destruct Hsp as [->| ->]; cbn [List.length] in Hlen.
    - replace (k + n - 1)%nat with (S (S (k + List.length body))) by lia.
      rewrite (name_end_skip _ _ "("%char); [| |left; reflexivity].
      + rewrite Hz. lia.
      + rewrite Htext.
        replace (pre ++ (c :: (body ++ [z]) ++ [] ++ ["("%char]) ++ post)
          with ((pre ++ c :: body ++ [z]) ++ "("%char :: post)
          by same_text.
        apply nth_after. text_length.
    - replace (k + n - 1)%nat with (S (S (S (k + List.length body))))
        by lia.
      rewrite (name_end_skip _ _ "("%char); [| |left; reflexivity].
      + rewrite (name_end_skip _ _ space); [| |right; reflexivity].
        * rewrite Hz. lia.
        * rewrite Htext.
          replace (pre ++ (c :: (body ++ [z]) ++ [space] ++ ["("%char])
                   ++ post)
            with ((pre ++ c :: body ++ [z]) ++ space :: "("%char :: post)
            by same_text.
          apply nth_after. text_length.
      + rewrite Htext.
        replace (pre ++ (c :: (body ++ [z]) ++ [space] ++ ["("%char])
                 ++ post)
          with ((pre ++ c :: body ++ [z] ++ [space]) ++ "("%char :: post)
          by same_text.
        apply nth_after. text_length. }
  rewrite Hend.
  assert (Hname : firstn (k + List.length body + 1 + 1 - k) (skipn k text)
                  = c :: body ++ [z]).
  { rewrite Htext at 1. rewrite (skipn_exact pre _ k (eq_sym Hpre)).
    replace ((c :: (body ++ [z]) ++ sp ++ ["("%char]) ++ post)
      with ((c :: body ++ [z]) ++ (sp ++ ["("%char]) ++ post)
      by same_text.
    apply firstn_exact. text_length. }
  rewrite Hname. exists pre, c, (body ++ [z]), sp, post.
  split.
  - rewrite Htext at 1. same_text.
  - split; [reflexivity|]. split; [exact Hc|].
    split; [destruct body; discriminate|]. split; [exact Hall|].
    split; [exact Hsp|].
    intros [Hin|Hin].
    + destruct Hc as [Hc|Hc]; subst c; discriminate Hin.
    + exact (name_char_no_slash _ Hall Hin).
Qed.

Lemma func_name_is_identifier_witness :
  exists (pre : cstring) (c : ascii) (rest sp post : cstring),
    cstr "extern int bfoo (void);\n"
    = pre ++ cstr "bfoo" ++ sp ++ "("%char :: post
    /\ cstr "bfoo" = c :: rest
    /\ (c = "b"%char \/ c = "u"%char)
    /\ rest <> []
    /\ Forall (fun x => name_char x = true) rest
    /\ (sp = [] \/ sp = [space])
    /\ ~ In "/"%char (cstr "bfoo").
Proof.
  apply (func_name_is_identifier (cstr "extern int bfoo (void);\n")).
  vm_compute. reflexivity.
Defined.

(** ** Block quotes *)

Lemma strspn_app_ge (a b accept : cstring) :
  (strspn a accept <= strspn (a ++ b) accept)%nat.
Proof.
  induction a as [|c a IH]; cbn [strspn app]; [lia|].
  destruct (existsb (is_char c) accept); lia.
Qed.

Lemma matches_sp (w : cstring) : matches Sp w -> w = [space].
Proof.
  intros H. inversion H as [|p c Hc| | | | |]. subst.
  unfold one in Hc. apply is_char_eq in Hc. subst c. reflexivity.
Qed.

(** A lexeme of the block-quote rules starts with four spaces. *)
Lemma matches_bq_spaces (w : cstring) :
  matches pat_bq w -> (4 <= strspn w [space])%nat.
Proof.
  unfold pat_bq. cbn [Seq AtLeast Rep]. intros H.
  inversion H as [| |? ? u v Hu _| | | |]. subst. clear H.
  inversion Hu as [| |? ? u1 v1 Hu1 _| | | |]. subst. clear Hu.
  inversion Hu1 as [| |? ? a1 r1 Ha1 Hr1| | | |]. subst. clear Hu1.
  inversion Hr1 as [| |? ? a2 r2 Ha2 Hr2| | | |]. subst. clear Hr1.
  inversion Hr2 as [| |? ? a3 a4 Ha3 Ha4| | | |]. subst. clear Hr2.
  apply matches_sp in Ha1, Ha2, Ha3, Ha4. subst.
  cbn [app strspn existsb is_char]. cbn. lia.
Qed.

Lemma strspn_esc_text (s : cstring) :
  forall prev : option ascii,
    strspn (esc_text prev s) [space] = strspn s [space].
Proof.
  induction s as [|c s IH]; intros prev; [reflexivity|].
  cbn [esc_text strspn existsb]. rewrite orb_false_r.
  destruct (is_char c space) eqn:Esp.
  - apply is_char_eq in Esp. subst c. cbn [is_char]. cbn [app strspn existsb].
    replace (is_char space backslash) with false by reflexivity.
    replace (is_quote_or_dot space) with false by reflexivity.
    cbn [andb app strspn existsb]. rewrite orb_false_r.
    replace (is_char space space) with true by reflexivity.
    rewrite IH. reflexivity.
  - destruct (is_char c backslash) eqn:Eb.
    + reflexivity.
    + destruct (is_quote_or_dot c && after_newline prev);
        cbn [app strspn existsb]; [reflexivity|].
      rewrite orb_false_r, Esp. reflexivity.
Qed.

Lemma space_not_nl (c : ascii) : is_char c space = true -> is_char c nl = false.
Proof. intros H. apply is_char_eq in H. subst c. reflexivity. Qed.

Lemma strspn_rest_zero (other : cstring -> cstring) (s : cstring) :
  strspn (rest_of_lines (strip_line 0) other s) [space] = strspn s [space].
Proof.
  induction s as [|c s IH]; [reflexivity|].
  destruct (is_char c space) eqn:Esp.
  - rewrite (rest_of_lines_cons (strip_line 0) (strip_line 0) other c [c] s
               (space_not_nl c Esp) eq_refl (fun l => eq_refl)).
    cbn [app]. rewrite !strspn_cons_space, Esp, IH. reflexivity.
  - rewrite strspn_cons_space, Esp. unfold rest_of_lines. cbn [lines].
    destruct (is_char c nl); [|destruct (lines s)];
      rewrite strip_line_zero; cbn [app];
      rewrite strspn_cons_space, Esp; reflexivity.
Qed.

Lemma strspn_rest (d : nat) :
  forall (other : cstring -> cstring) (s : cstring),
    (d <= strspn s [space])%nat ->
    strspn (rest_of_lines (strip_line d) other s) [space]
    = (strspn s [space] - d)%nat.
Proof.
  induction d as [|d IH]; intros other s H.
  - rewrite strspn_rest_zero. lia.
  - destruct s as [|c s]; [cbn [strspn] in H; lia|].
    rewrite strspn_cons_space in *.
    destruct (is_char c space) eqn:Esp; [|lia].
    rewrite (rest_of_lines_cons (strip_line (S d)) (strip_line d) other c []
               s (space_not_nl c Esp) (strip_line_nil d)
               (fun l => strip_line_space d c l Esp)).
    cbn [app]. rewrite IH by lia. lia.
Qed.

(** The first line keeps the spaces that [unindent] does not take. *)
Lemma strspn_unindent (d : nat) (s : cstring) :
  (d <= strspn s [space])%nat ->
  strspn (unindent d s) [space] = (strspn s [space] - d)%nat.
Proof.
  intros H. unfold unindent. rewrite <- rest_of_lines_same.
  exact (strspn_rest d (strip_line d) s H).
Qed.

Ltac solve_bq :=
  unfold bq_inv; all_fields;
  repeat match goal with
         | H : yy_start ?st = _ |- context [yy_start ?st] => rewrite H
         end;
  let Hq := fresh in
  intros Hq;
  first [ discriminate Hq
        | assumption
        | eapply Nat.le_trans; [|apply strspn_app_ge]; assumption ].

Lemma rules_keep_bq :
  Forall (fun r => forall (m : mode) (bol : bool) (st st' : state),
              rule_active m bol r = true ->
              yy_start st = m ->
              (m = BQ -> (4 <= strspn (g_buf st) [space])%nat) ->
              (r_pat r = pat_bq -> (4 <= strspn (yytext st) [space])%nat) ->
              r_act r st = Ret st' ->
              bq_inv st') rules.
Proof.
  unfold rules.
  repeat (apply Forall_cons;
          [intros m bol st st' Hact Hm Hinv Hlex Hrun;
           destruct m; try discriminate Hact; clear Hact;
           try specialize (Hinv eq_refl);
           cbn [r_pat] in Hlex; try specialize (Hlex eq_refl);
           first
             [ cbn [r_act] in Hrun; unfold seq_act in Hrun;
               match type of Hrun with
               | context [func_head] =>
                   destruct (func_head st) as [st1| |] eqn:E;
                   cbn [bind] in Hrun; try discriminate Hrun;
                   unfold BEGIN in Hrun; injection Hrun as <-;
                   unfold bq_inv; all_fields;
                   let Hq := fresh in intros Hq; discriminate Hq
               end
             | runs; solve_bq ]
          |]).
  apply Forall_nil.
Qed.

Lemma bq_inv_rules :
  Forall (fun r => forall (st : state) (n : nat) (st' : state),
              rule_active (yy_start st) (yy_at_bol st) r = true ->
              match_len (r_pat r) (yy_input st) = Some n ->
              bq_inv st ->
              r_act r (rule_setup n st) = Ret st' ->
              bq_inv st') rules.
Proof.
  eapply Forall_impl; [|exact rules_keep_bq].
  intros r Hr st n st' Ha Hm Hinv Hrun.
  refine (Hr (yy_start st) (yy_at_bol st) (rule_setup n st) st' Ha eq_refl
            Hinv _ Hrun).
  intros Hpat. rewrite Hpat in Hm. apply match_len_matches in Hm.
  exact (matches_bq_spaces _ Hm).
Qed.

Lemma bq_inv_eof (st : state) (act : action) (st' : state) :
  eof_rule (yy_start st) = Some act ->
  bq_inv st ->
  act (set_scan (yy_at_bol st) [] [] st) = Ret st' ->
  bq_inv st'.
Proof.
  intros He Hinv Hrun.
  destruct (yy_start st) eqn:Hm; cbn [eof_rule] in He; try discriminate He;
    injection He as <-; runs; solve_bq.
Qed.

Lemma bq_inv_echo (st st' : state) :
  bq_inv st -> ECHO (rule_setup 1 st) = Ret st' -> bq_inv st'.
Proof.
  intros Hinv Hrun. unfold ECHO, printf in Hrun. injection Hrun as <-.
  exact Hinv.
Qed.

(** What [bq] prints for a buffer that starts with four spaces or more. *)
Lemma bq_shifts (st st' : state) :
  (4 <= strspn (g_buf st) [space])%nat ->
  bq st = Ret st' ->
  exists o : cstring,
    esc (g_buf st) = Ret o
    /\ stdout st'
       = stdout st ++ cstr "\n.EX\n"
         ++ unindent (strspn (g_buf st) [space] - 4) o ++ cstr ".EE\n"
    /\ strspn (unindent (strspn (g_buf st) [space] - 4) o) [space] = 4%nat.
Proof.
  intros Hsp H. unfold bq in H.
  destruct (strlen (g_buf st) =? 0) eqn:E0.
  { apply strlen_zero in E0. rewrite E0 in Hsp. cbn [strspn] in Hsp. lia. }
  destruct (esc (g_buf st)) as [o| |] eqn:Eo; cbn [bind] in H;
    try discriminate H.
  pose proof (esc_ret_text _ _ Eo) as Ho.
  assert (Hso : strspn o [space] = strspn (g_buf st) [space])
    by (rewrite Ho; apply strspn_esc_text).
  rewrite Hso in H.
  replace (4 - Z.of_nat (strspn (g_buf st) [space]))
    with (- Z.of_nat (strspn (g_buf st) [space] - 4)) in H by lia.
  rewrite indent_lines_aux in H.
  - unfold finish in H.
    destruct (0 + strlen (unindent (strspn (g_buf st) [space] - 4) o)
              <? BUFLEN); cbn [bind] in H; [|discriminate H].
    unfold printf, bclear in H. cbn [bind] in H. injection H as <-.
    exists o. split; [reflexivity|]. all_fields. split.
    + cbn [rev app]. rewrite <- ?app_assoc. reflexivity.
    + rewrite strspn_unindent by lia. lia.
  - right. destruct o as [|c o]; [reflexivity|].
    cbn [strspn existsb] in Hso. rewrite orb_false_r in Hso.
    cbn [at_line_start]. destruct (is_char c space); [reflexivity|lia].
Qed.

(** A block quote is shifted, never padded.  Whenever the scanner is in
    the block-quote start condition the buffer starts with the four
    spaces (or more) of the rule that entered it, so the [delta] that
    [bq] hands to [indent] is never positive; and what [bq] then prints
    is the escaped block between [.EX] and [.EE] with the surplus of the
    first line's indentation taken off every line (as far as the line has
    it), which leaves the first line with exactly four spaces. *)
Theorem bq_block_is_shifted (inp : cstring) (st : state) :
  reachable inp st ->
  yy_start st = BQ ->
  (4 <= strspn (g_buf st) [space])%nat
  /\ forall st' : state,
       bq st = Ret st' ->
       exists o : cstring,
         esc (g_buf st) = Ret o
         /\ stdout st'
            = stdout st ++ cstr "\n.EX\n"
              ++ unindent (strspn (g_buf st) [space] - 4) o ++ cstr ".EE\n"
         /\ strspn (unindent (strspn (g_buf st) [space] - 4) o) [space]
            = 4%nat.
Proof.
  intros Hr Hq.
  assert (Hinv : bq_inv st).
  { apply (reachable_keeps bq_inv bq_inv_rules bq_inv_eof bq_inv_echo inp);
      [|exact Hr].
    intros H. discriminate H. }
  split; [exact (Hinv Hq)|].
  intros st' H. exact (bq_shifts st st' (Hinv Hq) H).
Qed.

Lemma bq_block_is_shifted_witness :
  exists st : state,
    reachable (cstr "      a.b\n    'c\n\n     d\n\nText.\n") st
    /\ g_buf st = cstr "      a.b\n    'c\n\n     d\n"
    /\ emitted bq (g_buf st) = Ret (cstr "\n.EX\n    a.b\n  'c\n\n   d\n.EE\n")
    /\ (4 <= strspn (g_buf st) [space])%nat
    /\ forall st' : state,
         bq st = Ret st' ->
         exists o : cstring,
           esc (g_buf st) = Ret o
           /\ stdout st'
              = stdout st ++ cstr "\n.EX\n"
                ++ unindent (strspn (g_buf st) [space] - 4) o
                ++ cstr ".EE\n"
           /\ strspn (unindent (strspn (g_buf st) [space] - 4) o) [space]
              = 4%nat.
Proof.
  eexists. split; [exists 4%nat; vm_compute; reflexivity|].
  split; [reflexivity|]. split; [vm_compute; reflexivity|].
  apply (bq_block_is_shifted (cstr "      a.b\n    'c\n\n     d\n\nText.\n"));
    [exists 4%nat; vm_compute; reflexivity|reflexivity].
Defined.
